(** * nds: cache coordination in front of a datastore, and its Redis backend

    A shallow embedding of the two Go sources of the package:

    - the file of package [nds] with the functions [DeleteMulti], [Delete]
      and [deleteMulti]: the delete coordinator that locks memcache before
      it deletes from the datastore;
    - [cachers/redis/redis.go] (functions [NewCacher], [set], [AddMulti],
      [SetMulti], [CompareAndSwapMulti], [DeleteMulti], [GetMulti] and the
      Lua [casScript]): the pipelined Redis cache backend.

    Conventions.  A Go [uint32], [int64] or [time.Duration] is a [Z]; a Go
    [byte] is a [Byte.byte]; a Go [[]byte] is a slice header into a heap of
    backing arrays (so that aliasing is visible), [None] being the nil
    slice; a Go [map[string]*Item] is a [gmap string Item]; a [MultiError]
    is a list of optional errors updated by index.  External calls (the
    Redis connection, memcache, the datastore, the random source) are
    threaded through an explicit state that also records every call.

    The batch writers of the backend start a goroutine that queues the
    commands and flushes, and await the replies in the calling goroutine;
    nothing in the source orders the two.  They are modelled as two
    threads of a small machine that share the connection, [me] and
    [flushErr]; a schedule says which of the two takes the next step, and
    what a writer does is stated for a schedule or for all of them. *)

From Stdlib Require Import ZArith Lia.
From Stdlib.Strings Require Import Byte.
From stdpp Require Import gmap strings list.

Local Open Scope Z_scope.

(** ** Bytes and the little-endian [uint32] codec of [encoding/binary] *)

Module Wire.

(** Go's conversion [byte(v)]: the low eight bits of [v]. *)
Definition byte_of_Z (v : Z) : byte :=
  default x00 (Byte.of_N (Z.to_N (Z.land v 255))).

(** Go's conversion [uint32(b)] of a byte. *)
Definition Z_of_byte (b : byte) : Z := Z.of_N (Byte.to_N b).

(** [binary.LittleEndian.PutUint32]: the four bytes written for [v]. *)
Definition PutUint32 (v : Z) : list byte :=
  [ byte_of_Z v;
    byte_of_Z (Z.shiftr v 8);
    byte_of_Z (Z.shiftr v 16);
    byte_of_Z (Z.shiftr v 24) ].

(** [binary.LittleEndian.Uint32] on the first four bytes of [b]. *)
Definition Uint32 (b0 b1 b2 b3 : byte) : Z :=
  Z.lor (Z.lor (Z.lor (Z_of_byte b0) (Z.shiftl (Z_of_byte b1) 8))
               (Z.shiftl (Z_of_byte b2) 16))
        (Z.shiftl (Z_of_byte b3) 24).

(** Errors of [io.ReadFull] as [binary.Read] passes them on. *)
Inductive io_error := io_EOF | io_ErrUnexpectedEOF.

(** [binary.Read(buf, binary.LittleEndian, &flags)] for a [uint32]: reads
    four bytes off the front of the buffer, or fails and says how. The
    second component is what is left unread in the buffer. *)
Definition binary_Read_uint32 (buf : list byte)
  : (io_error + Z) * list byte :=
  match buf with
  | b0 :: b1 :: b2 :: b3 :: rest => (inr (Uint32 b0 b1 b2 b3), rest)
  | [] => (inl io_EOF, [])
  | _ => (inl io_ErrUnexpectedEOF, [])
  end.

(** [binary.Write(buf, binary.LittleEndian, flags)] for a [uint32]
    appends its four bytes to the buffer. *)
Definition binary_Write_uint32 (buf : list byte) (v : Z) : list byte :=
  buf ++ PutUint32 v.

(** The range of a Go [uint32]. *)
Definition is_uint32 (v : Z) : Prop := 0 <= v < 2 ^ 32.

End Wire.

(** ** Go byte slices over a heap of backing arrays *)

Module Mem.

(** The heap: backing array number [a] is [h !! a]. *)
Abbreviation Heap := (list (list byte)).

(** A non-nil slice header: backing array, offset into it, length. *)
Record slice := Slice { s_arr : nat; s_off : nat; s_len : nat }.

(** A Go [[]byte]: [None] is the nil slice. *)
Abbreviation ByteSlice := (option slice).

Definition array_of (h : Heap) (a : nat) : list byte := default [] (h !! a).

(** The bytes a slice denotes in a heap. *)
Definition slice_bytes (h : Heap) (s : slice) : list byte :=
  take (s_len s) (drop (s_off s) (array_of h (s_arr s))).

Definition bytes_of (h : Heap) (v : ByteSlice) : list byte :=
  from_option (slice_bytes h) [] v.

(** Go's [len(v)]. *)
Definition len (v : ByteSlice) : nat := from_option s_len 0%nat v.

(** A fresh backing array holding [bs], and the slice over all of it. *)
Definition alloc (h : Heap) (bs : list byte) : Heap * slice :=
  (h ++ [bs], Slice (length h) 0 (length bs)).

(** Go's [s[n:]] for [n <= len(s)]. *)
Definition slice_from (s : slice) (n : nat) : slice :=
  Slice (s_arr s) (s_off s + n) (s_len s - n).

(** A write [arr[j] = b] into backing array [a]; every write through a
    slice [s] (by index, after reslicing up to its capacity, or by an
    [append] that fits) is such a write with [a = s_arr s]. *)
Definition store_byte (h : Heap) (a j : nat) (b : byte) : Heap :=
  alter (fun arr => <[j := b]> arr) a h.

(** A run of writes, each [(a, j, x)] for [arr[j] = x] into backing array
    [a]. *)
Definition writes (h : Heap) (ws : list (nat * nat * byte)) : Heap :=
  foldl (fun h w => store_byte h w.1.1 w.1.2 w.2) h ws.

End Mem.

(** ** A state monad for code that talks to the outside *)

Module St.

Definition M (S A : Type) : Type := S -> A * S.

Definition ret {S A} (a : A) : M S A := fun s => (a, s).

Definition bind {S A B} (m : M S A) (k : A -> M S B) : M S B :=
  fun s => let (a, s') := m s in k a s'.

End St.

Declare Scope st_scope.
Delimit Scope st_scope with st.
Notation "x <- m ;; k" := (St.bind m (fun x => k))
  (at level 100, m at next level, right associativity) : st_scope.

(** ** The Redis cache backend, [cachers/redis/redis.go] *)

Module Redis.
Import Wire Mem St.
Local Open Scope st_scope.

(** *** Errors *)

(** The errors the redigo connection hands back: the sentinel
    [redis.ErrNil], or any other error value, known by the text its
    [Error()] method returns (a server error reply is a [redis.Error]
    holding the reply's text). *)
Inductive redis_err :=
| redis_ErrNil
| redis_Error (msg : string).

(** The [Error()] method. *)
Definition Error (e : redis_err) : string :=
  match e with
  | redis_ErrNil => "redigo: nil returned"
  | redis_Error msg => msg
  end.

(** The Go [error] values of this file.  [ErrNotStored], [ErrCASConflict]
    and [ErrCacheMiss] are the sentinels of package [nds];
    [ErrShortItem got] is the value of
    [fmt.Errorf("redis: cached item should be atleast 4 bytes, got %d", got)],
    [ErrLenMismatch] that of the [len(cachedItems) != len(keys)] message;
    [MultiError] is [nds.MultiError], one slot per request item, [None]
    for a nil slot. *)
#[warnings="-register-all"]
Inductive error :=
| ErrNotStored
| ErrCASConflict
| ErrCacheMiss
| ConnErr (e : redis_err)
| IOErr (e : io_error)
| ErrShortItem (got : nat)
| ErrLenMismatch (ncached nkeys : nat)
| MultiError (me : list (option error)).

Abbreviation MultiErr := (list (option error)).

(** *** Items *)

(** The dynamic value behind [Item.GetCASInfo()], an [interface{}]: nil,
    a [[]byte] (itself nil or not), or a value of another type. *)
Inductive CASInfo :=
| CASInfo_nil
| CASInfo_bytes (b : ByteSlice)
| CASInfo_other.

(** Modelled from the spec: the struct [nds.Item] is declared outside the
    given sources; the fields are those the spec's data model lists (key,
    value, flags, expiration, CAS token) and this file reads and writes.
    [Expiration] is a [time.Duration], in nanoseconds. *)
Record Item := {
  Key : string;
  Value : ByteSlice;
  Flags : Z;
  Expiration : Z;
  casInfo : CASInfo
}.

(** Modelled from the spec: the methods [GetCASInfo] and [SetCASInfo] of
    [nds.Item], declared outside the given sources, read and replace the
    item's CAS token. *)
Definition GetCASInfo (item : Item) : CASInfo := casInfo item.

Definition SetCASInfo (item : Item) (v : CASInfo) : Item :=
  {| Key := Key item; Value := Value item; Flags := Flags item;
     Expiration := Expiration item; casInfo := v |}.

(** *** The connection *)

(** An argument of a Redis command: what the [interface{}] holds. *)
Inductive Arg :=
| ArgString (s : string)
| ArgBytes (b : list byte)
| ArgInt64 (n : Z).

Record Command := { cmd_name : string; cmd_args : list Arg }.

(** The interface [redis.Conn] of redigo with the two reply helpers the
    file uses, over a connection state [C].  Every method returns the new
    connection state with its Go results. *)
Class Conn (C : Type) := {
  Reply : Type;
  conn_Send : Command -> C -> option redis_err * C;
  conn_Flush : C -> option redis_err * C;
  conn_Receive : C -> (Reply * option redis_err) * C;
  conn_Do : Command -> C -> (Reply * option redis_err) * C;
  conn_Close : C -> C;
  redis_Int64 : Reply * option redis_err -> Z * option redis_err;
  redis_ByteSlices :
    Reply * option redis_err -> list (option (list byte)) * option redis_err
}.

(** One call on the connection, with the error it returned. *)
Inductive Call :=
| CallSend (cmd : Command) (err : option redis_err)
| CallFlush (err : option redis_err)
| CallReceive (err : option redis_err)
| CallDo (cmd : Command) (err : option redis_err)
| CallClose.

(** The connection and the calls made on it so far, oldest first. *)
Record ConnState (C : Type) := { conn : C; calls : list Call }.
Arguments conn {C} _.
Arguments calls {C} _.

(** What the sender goroutine of a batch writer has to do at a slot: send
    this command or, with none (an item without a token in
    [CompareAndSwapMulti], line 167), store [ErrNotStored] in the slot. *)
Abbreviation Job := (option Command).

(** Which of the two goroutines of a batch writer takes the next step. *)
Inductive Who := Caller | Sender.

Abbreviation Schedule := (list Who).

Section Backend.
Context {C : Type} `{Conn C}.

Definition Send (cmd : Command) : M (ConnState C) (option redis_err) :=
  fun s => let (err, c) := conn_Send cmd (conn s) in
           (err, {| conn := c; calls := calls s ++ [CallSend cmd err] |}).

Definition Flush : M (ConnState C) (option redis_err) :=
  fun s => let (err, c) := conn_Flush (conn s) in
           (err, {| conn := c; calls := calls s ++ [CallFlush err] |}).

Definition Receive : M (ConnState C) (Reply * option redis_err) :=
  fun s => let (r, c) := conn_Receive (conn s) in
           (r, {| conn := c; calls := calls s ++ [CallReceive r.2] |}).

Definition Do (cmd : Command) : M (ConnState C) (Reply * option redis_err) :=
  fun s => let (r, c) := conn_Do cmd (conn s) in
           (r, {| conn := c; calls := calls s ++ [CallDo cmd r.2] |}).

Definition Close : M (ConnState C) unit :=
  fun s => (tt, {| conn := conn_Close (conn s);
                   calls := calls s ++ [CallClose] |}).

(** [time.Millisecond], in nanoseconds. *)
Definition Millisecond : Z := 1000000.

(** [time.Duration.Truncate]: [d - d%m], Go's [%] taking the sign of
    [d]. *)
Definition Truncate (d m : Z) : Z :=
  if m <=? 0 then d else d - Z.rem d m.

(** The payload both senders build in [buf]: [buf.Reset()],
    [binary.Write(buf, binary.LittleEndian, item.Flags)],
    [buf.Write(item.Value)], read back with [buf.Bytes()]. *)
Definition payload (h : Heap) (item : Item) : list byte :=
  let buf := [] in
  let buf := binary_Write_uint32 buf (Flags item) in
  let buf := buf ++ bytes_of h (Value item) in
  buf.

(** *** [set], lines 79-138 *)

(** The SET command the sender builds for one item. *)
Definition set_command (h : Heap) (nx : bool) (item : Item) : Command :=
  let args := [ArgString (Key item); ArgBytes (payload h item)] in
  let args := if nx then args ++ [ArgString "NX"] else args in
  let args :=
    if Expiration item =? 0 then args
    else
      let expire :=
        Z.quot (Truncate (Expiration item) Millisecond) Millisecond in
      args ++ [ArgString "PX"; ArgInt64 expire] in
  {| cmd_name := "SET"; cmd_args := args |}.

(** [conn.Receive()] in [set] and what becomes of its error. *)
Definition set_recv (nx : bool) : M (ConnState C) (option error) :=
  r <- Receive;;
  ret (match r.2 with
       | Some redis_ErrNil => Some (if nx then ErrNotStored
                                    else ConnErr redis_ErrNil)
       | Some e => Some (ConnErr e)
       | None => None
       end).

(** The tail common to the three batch writers (lines 130-137, 197-204
    and 244-251): the flush error first, then the per-slot errors if
    [hasErr] is set, else nil. *)
Definition batch_result (flushErr : option redis_err)
    (acc : MultiErr * bool) : option error :=
  match flushErr with
  | Some e => Some (ConnErr e)
  | None => if acc.2 then Some (MultiError acc.1) else None
  end.

(** *** The pool *)

(** [type backend struct { store *redis.Pool }]: the pool is what
    [b.store.GetContext(ctx)] gives for the call at hand, an error or a
    connection. *)
Record backend := { store : redis_err + C }.

(** [redisConn, err := b.store.GetContext(ctx); if err != nil { return ... };
    defer redisConn.Close()] around a method body.  The second component
    is the connection as the call leaves it, if one was taken. *)
Definition with_conn {A} (b : backend) (fail : error -> A)
    (body : M (ConnState C) A) : A * option (ConnState C) :=
  match store b with
  | inl e => (fail (ConnErr e), None)
  | inr c =>
      let (a, s) := (a <- body;; _ <- Close;; ret a)
                      {| conn := c; calls := [] |} in
      (a, Some s)
  end.

(** *** [CompareAndSwapMulti], lines 140-205 *)

(** The package variable [casSha], set once by [NewCacher]. *)
Variable casSha : string.

(** The [expire] argument of the script call, lines 159-162. *)
Definition cas_expire (item : Item) : Z :=
  let expire := Z.quot (Truncate (Expiration item) Millisecond) Millisecond in
  if Expiration item =? 0 then -1 else expire.

(** [redisConn.Send("EVALSHA", casSha, "1", item.Key, cas, buf.Bytes(), expire)]. *)
Definition cas_command (h : Heap) (item : Item) (cas : slice) : Command :=
  {| cmd_name := "EVALSHA";
     cmd_args := [ArgString casSha; ArgString "1"; ArgString (Key item);
                  ArgBytes (slice_bytes h cas); ArgBytes (payload h item);
                  ArgInt64 (cas_expire item)] |}.

(** The command the sender of [CompareAndSwapMulti] builds for an item
    that carries a token (line 154): none for an item without one. *)
Definition cas_job (h : Heap) (item : Item) : option Command :=
  match GetCASInfo item with
  | CASInfo_bytes (Some cas) => Some (cas_command h item cas)
  | _ => None
  end.

(** [redisConn.Receive()] and what becomes of its error, lines 185-194. *)
Definition cas_recv : M (ConnState C) (option error) :=
  r <- Receive;;
  ret (match r.2 with
       | Some redis_ErrNil => Some ErrNotStored
       | Some e => if String.eqb (Error e) "cas conflict"
                   then Some ErrCASConflict
                   else Some (ConnErr e)
       | None => None
       end).

(** *** [DeleteMulti], lines 207-252 *)

Definition del_command (key : string) : Command :=
  {| cmd_name := "DEL"; cmd_args := [ArgString key] |}.

(** [redis.Int64(redisConn.Receive())] and lines 235-241. *)
Definition del_recv : M (ConnState C) (option error) :=
  r <- Receive;;
  let (n, err) := redis_Int64 r in
  ret (match err with
       | Some e => Some (ConnErr e)
       | None => if n =? 1 then None else Some ErrCacheMiss
       end).

(** *** The two goroutines of a batch writer

    [set], [CompareAndSwapMulti] and [DeleteMulti] start a goroutine (the
    sender, lines 83-109, 151-174 and 217-224) that queues one command
    per slot and flushes, and go on at once to the loop that awaits the
    replies (the caller, lines 111-137, 176-204 and 226-251).  Nothing in
    the source makes one wait for the other: the two share the
    connection, [me] and [flushErr], and their steps interleave.  A step
    is one call on the connection or one access to [me] or [flushErr]. *)

(** Where the sender is: at the top of its loop with slot [i] next; after
    a [Send] for slot [i] that returned [e], with [me[i] = err] next;
    after the [Flush], with the assignment to [flushErr] next; done. *)
Inductive SenderPC :=
| SendAt (i : nat)
| SendFailed (i : nat) (e : redis_err)
| Flushed (e : option redis_err)
| SenderDone.

(** Where the caller is, with its local [hasErr]: at the loop test for
    slot [i] and the test of [flushErr]; at the test of [me[i]]; at the
    [Receive] for slot [i]; after a reply for slot [i] that gave the error
    [e], with [me[i] = e] next; after the loop, at the tests that make the
    result; with the result [r] made and the deferred [Close] next;
    done. *)
Inductive CallerPC :=
| LoopAt (i : nat) (hasErr : bool)
| SlotAt (i : nat) (hasErr : bool)
| ReceiveAt (i : nat) (hasErr : bool)
| ReplyFailed (i : nat) (e : error)
| AfterLoop (hasErr : bool)
| Returned (r : option error)
| CallerDone (r : option error).

(** The shared variables and the two goroutines. *)
Record Machine := {
  m_conn : ConnState C;
  m_me : MultiErr;
  m_flushErr : option redis_err;
  m_sender : SenderPC;
  m_caller : CallerPC
}.

Definition on_conn (s : ConnState C) (m : Machine) : Machine :=
  {| m_conn := s; m_me := m_me m; m_flushErr := m_flushErr m;
     m_sender := m_sender m; m_caller := m_caller m |}.

(** [me[i] = e]. *)
Definition store_me (i : nat) (e : error) (m : Machine) : Machine :=
  {| m_conn := m_conn m; m_me := <[i := Some e]> (m_me m);
     m_flushErr := m_flushErr m;
     m_sender := m_sender m; m_caller := m_caller m |}.

(** [flushErr = e]. *)
Definition store_flushErr (e : option redis_err) (m : Machine) : Machine :=
  {| m_conn := m_conn m; m_me := m_me m; m_flushErr := e;
     m_sender := m_sender m; m_caller := m_caller m |}.

Definition sender_to (pc : SenderPC) (m : Machine) : Machine :=
  {| m_conn := m_conn m; m_me := m_me m; m_flushErr := m_flushErr m;
     m_sender := pc; m_caller := m_caller m |}.

Definition caller_to (pc : CallerPC) (m : Machine) : Machine :=
  {| m_conn := m_conn m; m_me := m_me m; m_flushErr := m_flushErr m;
     m_sender := m_sender m; m_caller := pc |}.

(** One step of the sender: the body of its [range] loop for the slot at
    hand, or, past the last slot, [flushErr = conn.Flush()]. *)
Definition step_sender (jobs : list Job) (m : Machine) : Machine :=
  match m_sender m with
  | SendAt i =>
      match jobs !! i with
      | Some (Some cmd) =>
          let r := Send cmd (m_conn m) in
          sender_to (match r.1 with
                     | Some e => SendFailed i e
                     | None => SendAt (S i)
                     end) (on_conn r.2 m)
      | Some None => sender_to (SendAt (S i)) (store_me i ErrNotStored m)
      | None =>
          let r := Flush (m_conn m) in
          sender_to (Flushed r.1) (on_conn r.2 m)
      end
  | SendFailed i e => sender_to (SendAt (S i)) (store_me i (ConnErr e) m)
  | Flushed e => sender_to SenderDone (store_flushErr e m)
  | SenderDone => m
  end.

(** One step of the caller, [n] being [len(items)]; [recv] awaits a reply
    and turns it into the slot's error.  The loops of the three writers
    differ in [recv] only. *)
Definition step_caller (recv : M (ConnState C) (option error)) (n : nat)
    (m : Machine) : Machine :=
  match m_caller m with
  | LoopAt i hasErr =>
      if (i <? n)%nat then
        match m_flushErr m with
        | Some _ => caller_to (AfterLoop hasErr) m
        | None => caller_to (SlotAt i hasErr) m
        end
      else caller_to (AfterLoop hasErr) m
  | SlotAt i hasErr =>
      match m_me m !! i with
      | Some (Some _) =>
          (* We couldn't queue the command so don't expect it's response *)
          caller_to (LoopAt (S i) true) m
      | _ => caller_to (ReceiveAt i hasErr) m
      end
  | ReceiveAt i hasErr =>
      let r := recv (m_conn m) in
      caller_to (match r.1 with
                 | Some e => ReplyFailed i e
                 | None => LoopAt (S i) hasErr
                 end) (on_conn r.2 m)
  | ReplyFailed i e => caller_to (LoopAt (S i) true) (store_me i e m)
  | AfterLoop hasErr =>
      caller_to (Returned (batch_result (m_flushErr m) (m_me m, hasErr))) m
  | Returned r => caller_to (CallerDone r) (on_conn (Close (m_conn m)).2 m)
  | CallerDone _ => m
  end.

Definition step (jobs : list Job) (recv : M (ConnState C) (option error))
    (w : Who) (m : Machine) : Machine :=
  match w with
  | Caller => step_caller recv (length jobs) m
  | Sender => step_sender jobs m
  end.

(** The machine when the caller has started the sender: [me] is
    [make(nds.MultiError, len(items))], [hasErr] is false and [flushErr]
    is nil. *)
Definition spawned (jobs : list Job) (c : C) : Machine :=
  {| m_conn := {| conn := c; calls := [] |};
     m_me := replicate (length jobs) None;
     m_flushErr := None;
     m_sender := SendAt 0;
     m_caller := LoopAt 0 false |}.

(** The steps a goroutine can need for [n] slots at most. *)
Definition caller_steps (n : nat) : nat := 4 * n + 3.
Definition sender_steps (n : nat) : nat := 2 * n + 2.

(** A run: the steps the schedule names, one after the other (a goroutine
    that is done stays where it is); then, the schedule used up, what is
    left of the caller, and then what is left of the sender.  Every
    interleaving of the two goroutines is the run of some schedule. *)
Definition batch (sched : Schedule) (jobs : list Job)
    (recv : M (ConnState C) (option error)) (c : C) : Machine :=
  let m := foldl (fun m w => step jobs recv w m) (spawned jobs c) sched in
  let m := Nat.iter (caller_steps (length jobs))
             (step_caller recv (length jobs)) m in
  Nat.iter (sender_steps (length jobs)) (step_sender jobs) m.

(** The schedule in which the caller goes on alone until it is done, as
    when the new goroutine is not run before the caller blocks or ends;
    and the one in which the sender is through before the caller's
    loop starts. *)
Definition caller_first : Schedule := [].
Definition sender_first (n : nat) : Schedule := replicate (sender_steps n) Sender.

(** The schedule in which the caller goes on to its first [Receive] and
    is held there while the sender does all its work, as when the reply
    awaited is not there before the commands are flushed. *)
Definition sender_at_first_receive (n : nat) : Schedule :=
  [Caller; Caller] ++ sender_first n.

(** What the call returned, and the connection with all the calls of the
    two goroutines.  A [MultiError] returned is the slice [me] itself: it
    is given here with what its slots hold when the caller returns. *)
Definition returned (m : Machine) : option error :=
  match m_caller m with
  | Returned r | CallerDone r => r
  | _ => None
  end.

Definition outcome (m : Machine) : option error * option (ConnState C) :=
  (returned m, Some (m_conn m)).

(** *** The batch writers *)

(** [set(conn, nx, items)] as [AddMulti] and [SetMulti] call it: the last
    step of the caller is the [Close] the two defer. *)
Definition set (sched : Schedule) (h : Heap) (nx : bool) (items : list Item)
    (c : C) : Machine :=
  batch sched ((fun item => Some (set_command h nx item)) <$> items)
    (set_recv nx) c.

Definition AddMulti (sched : Schedule) (b : backend) (h : Heap)
    (items : list Item) : option error * option (ConnState C) :=
  match store b with
  | inl e => (Some (ConnErr e), None)
  | inr c => outcome (set sched h true items c)
  end.

Definition SetMulti (sched : Schedule) (b : backend) (h : Heap)
    (items : list Item) : option error * option (ConnState C) :=
  match store b with
  | inl e => (Some (ConnErr e), None)
  | inr c => outcome (set sched h false items c)
  end.

Definition CompareAndSwapMulti (sched : Schedule) (b : backend) (h : Heap)
    (items : list Item) : option error * option (ConnState C) :=
  match store b with
  | inl e => (Some (ConnErr e), None)
  | inr c => outcome (batch sched (cas_job h <$> items) cas_recv c)
  end.

Definition DeleteMulti (sched : Schedule) (b : backend) (keys : list string)
    : option error * option (ConnState C) :=
  match store b with
  | inl e => (Some (ConnErr e), None)
  | inr c =>
      outcome (batch sched ((fun key => Some (del_command key)) <$> keys)
                 del_recv c)
  end.

(** *** [GetMulti], lines 254-310 *)

(** redigo parses every non-nil element of the MGET reply into a [[]byte]
    of its own; a nil element stays the nil slice. *)
Fixpoint alloc_replies (h : Heap) (rs : list (option (list byte)))
    : Heap * list ByteSlice :=
  match rs with
  | [] => (h, [])
  | None :: rest =>
      let (h', l) := alloc_replies h rest in (h', None :: l)
  | Some bs :: rest =>
      let (h1, s) := alloc h bs in
      let (h', l) := alloc_replies h1 rest in (h', Some s :: l)
  end.

(** [append([]byte(nil), bs...)]: nil when there is nothing to append,
    else a fresh backing array holding a copy. *)
Definition append_nil (h : Heap) (bs : list byte) : Heap * ByteSlice :=
  match bs with
  | [] => (h, None)
  | _ => let (h', s) := alloc h bs in (h', Some s)
  end.

(** The locals of the decoding loop, with the heap. *)
Record GetState := {
  g_heap : Heap;
  g_result : gmap string Item;
  g_me : MultiErr;
  g_hasErr : bool
}.

Definition get_fail (i : nat) (e : error) (g : GetState) : GetState :=
  {| g_heap := g_heap g; g_result := g_result g;
     g_me := <[i := Some e]> (g_me g); g_hasErr := true |}.

(** One turn of the loop of lines 280-304, at slot [i]. *)
Definition get_slot (i : nat) (key : string) (cacheItem : ByteSlice)
    (g : GetState) : GetState :=
  match cacheItem with
  | None => g
  | Some s =>
      let got := s_len s in
      if (got <? 4)%nat then get_fail i (ErrShortItem got) g
      else
        (* buf := bytes.NewBuffer(cacheItem) *)
        match binary_Read_uint32 (slice_bytes (g_heap g) s) with
        | (inl e, _) => get_fail i (IOErr e) g
        | (inr flags, _) =>
            let ndsItem :=
              {| Key := key; Flags := flags;
                 Value := Some (slice_from s 4) (* buf.Bytes() *);
                 Expiration := 0; casInfo := CASInfo_nil |} in
            let (h', cas) := append_nil (g_heap g) (slice_bytes (g_heap g) s) in
            let ndsItem := SetCASInfo ndsItem (CASInfo_bytes cas) in
            {| g_heap := h'; g_result := <[key := ndsItem]> (g_result g);
               g_me := g_me g; g_hasErr := g_hasErr g |}
        end
  end.

(** [for i, key := range keys], from slot [i] on; [cachedItems] is as long
    as [keys] (line 277), so [cachedItems[i]] is there. *)
Fixpoint get_loop (cachedItems : list ByteSlice) (keys : list string)
    (i : nat) (g : GetState) : GetState :=
  match keys with
  | [] => g
  | key :: rest =>
      get_loop cachedItems rest (S i)
        (get_slot i key (default None (cachedItems !! i)) g)
  end.

Definition mget_command (keys : list string) : Command :=
  {| cmd_name := "MGET"; cmd_args := ArgString <$> keys |}.

(** The result of [GetMulti]: the map ([None] for a nil map), the error,
    and the heap as the call leaves it. *)
Definition GetResult : Type :=
  option (gmap string Item) * option error * Heap.

Definition get_body (h : Heap) (keys : list string)
    : M (ConnState C) GetResult :=
  r <- Do (mget_command keys);;
  let (replies, err) := redis_ByteSlices r in
  match err with
  | Some e => ret (None, Some (ConnErr e), h)
  | None =>
      let (h, cachedItems) := alloc_replies h replies in
      let g := {| g_heap := h; g_result := ∅;
                  g_me := replicate (length keys) None;
                  g_hasErr := false |} in
      if negb (length cachedItems =? length keys)%nat
      then ret (None,
                Some (ErrLenMismatch (length cachedItems) (length keys)), h)
      else
        let g := get_loop cachedItems keys 0 g in
        if g_hasErr g
        then ret (Some (g_result g), Some (MultiError (g_me g)), g_heap g)
        else ret (Some (g_result g), None, g_heap g)
  end.

Definition GetMulti (b : backend) (h : Heap) (keys : list string)
    : GetResult * option (ConnState C) :=
  if (length keys =? 0)%nat then ((None, None, h), None)
  else with_conn b (fun e => (None, Some e, h)) (get_body h keys).

End Backend.

(** *** [casScript], lines 21-32 *)

(** A value inside the Lua script: [false] (what [redis.call] gives for a
    nil reply), a string, a status reply, or an error reply. *)
Inductive LuaValue :=
| LuaFalse
| LuaString (b : list byte)
| LuaStatus (s : string)
| LuaError (msg : string).

#[export] Instance byte_eq_dec : EqDecision byte := Byte.byte_eq_dec.

(** Lua's [==] of a value with a string. *)
Definition lua_eq_string (v : LuaValue) (a : list byte) : bool :=
  match v with
  | LuaString b => bool_decide (b = a)
  | _ => false
  end.

Section Script.

(** The server the script runs on: [redis.call] runs one command on the
    server's state and gives its reply. *)
Variable Server : Type.
Variable redis_call : Command -> Server -> LuaValue * Server.

Definition get_call (key : string) : Command :=
  {| cmd_name := "get"; cmd_args := [ArgString key] |}.

Definition set_px_call (key : string) (v : list byte) (exp : Z) : Command :=
  {| cmd_name := "SET";
     cmd_args := [ArgString key; ArgBytes v; ArgString "PX"; ArgInt64 exp] |}.

Definition set_call (key : string) (v : list byte) : Command :=
  {| cmd_name := "SET"; cmd_args := [ArgString key; ArgBytes v] |}.

(** The script, called with [KEYS[1]], [ARGV[1]], [ARGV[2]] and the
    number [ARGV[3]] reads as. *)
Definition casScript (KEYS1 : string) (ARGV1 ARGV2 : list byte) (ARGV3 : Z)
    : M Server LuaValue :=
  let exp := ARGV3 in
  cur <- redis_call (get_call KEYS1);;
  if lua_eq_string cur ARGV1
  then
    if exp >=? 0
    then redis_call (set_px_call KEYS1 ARGV2 exp)
    else redis_call (set_call KEYS1 ARGV2)
  else ret (LuaError "cas conflict").

End Script.

(** *** Words to state properties with *)

(** Line 154: the item carries a CAS token that is a non-nil [[]byte]. *)
Definition has_token (item : Item) : bool :=
  match GetCASInfo item with
  | CASInfo_bytes (Some _) => true
  | _ => false
  end.

(** The command the sender of [CompareAndSwapMulti] queues for an item:
    none for an item without a token. *)
Definition token_command (casSha : string) (h : Heap) (item : Item)
    : option Command :=
  match GetCASInfo item with
  | CASInfo_bytes (Some cas) => Some (cas_command casSha h item cas)
  | _ => None
  end.

(** The commands handed to [Send] in a list of calls, in order. *)
Definition sent (cs : list Call) : list Command :=
  omap (fun c => match c with CallSend cmd _ => Some cmd | _ => None end) cs.

(** The results of the [Flush] calls in a list of calls. *)
Definition flushed (cs : list Call) : list (option redis_err) :=
  omap (fun c => match c with CallFlush e => Some e | _ => None end) cs.

(** The errors of the [Receive] calls in a list of calls. *)
Definition received (cs : list Call) : list (option redis_err) :=
  omap (fun c => match c with CallReceive e => Some e | _ => None end) cs.

(** Slice [s] is the whole of a backing array of [h] that holds [bs]. *)
Definition whole (h : Heap) (s : slice) (bs : list byte) : Prop :=
  h !! s_arr s = Some bs /\ s_off s = 0%nat /\ s_len s = length bs.

(** A reply element and the [[]byte] made of it, in heap [h]. *)
Definition cached (h : Heap) (r : option (list byte)) (ci : ByteSlice)
    : Prop :=
  match r, ci with
  | Some bs, Some s => whole h s bs
  | None, None => True
  | _, _ => False
  end.

(** The error [GetMulti] has for a reply element: the one of line 283 for
    a payload of fewer than four bytes, else none. *)
Definition slot_err (r : option (list byte)) : option error :=
  match r with
  | Some bs =>
      if (length bs <? 4)%nat then Some (ErrShortItem (length bs)) else None
  | None => None
  end.

(** The flags a payload starts with. *)
Definition flags_of (bs : list byte) : Z :=
  match binary_Read_uint32 bs with
  | (inr flags, _) => flags
  | _ => 0
  end.

(** The item [GetMulti] makes for [key] of the payload [bs] held by the
    slice [s], with [t] as its token. *)
Definition decoded (key : string) (s t : slice) (bs : list byte) : Item :=
  {| Key := key; Flags := flags_of bs; Value := Some (slice_from s 4);
     Expiration := 0; casInfo := CASInfo_bytes (Some t) |}.

(** The write [w] goes through the [Value] slice of an item of the map
    [result]: by index, or past its length up to its capacity. *)
Definition through_value (result : gmap string Item) (w : nat * nat * byte)
    : Prop :=
  exists key it v,
    result !! key = Some it /\ Value it = Some v /\ w.1.1 = s_arr v.

(** Element [p] of the reply, nil past its end. *)
Definition reply_at (rs : list (option (list byte))) (p : nat)
    : option (list byte) :=
  default None (rs !! p).

(** The invariant of the decoding loop.  [h1] is the heap when the loop
    starts, [rs] the reply, [cis] the slices made of it, [keys] the keys
    asked for.  The heap has only grown; and every item of the result map
    was decoded, for a position of its key, of a payload of four bytes or
    more, and has as token a slice that is the whole of a backing array
    made since the loop started, holding that payload. *)
Definition get_inv (h1 : Heap) (rs : list (option (list byte)))
    (cis : list ByteSlice) (keys : list string) (g : GetState) : Prop :=
  h1 `prefix_of` g_heap g
  /\ forall k it, g_result g !! k = Some it ->
       exists j s bs t,
         keys !! j = Some k /\ rs !! j = Some (Some bs)
         /\ cis !! j = Some (Some s) /\ (4 <= length bs)%nat
         /\ it = decoded k s t bs
         /\ (length h1 <= s_arr t)%nat /\ whole (g_heap g) t bs.

(** What the turns at the slots [lo .. hi-1] make of the loop's locals. *)
Definition get_post (rs : list (option (list byte))) (keys : list string)
    (lo hi : nat) (g g' : GetState) : Prop :=
  g_heap g `prefix_of` g_heap g'
  /\ length (g_me g') = length (g_me g)
  /\ (forall p, (p < lo \/ hi <= p)%nat -> g_me g' !! p = g_me g !! p)
  /\ (forall p, (lo <= p < hi)%nat ->
        g_me g' !! p = match slot_err (reply_at rs p) with
                       | Some e => Some (Some e)
                       | None => g_me g !! p
                       end)
  /\ (g_hasErr g' = true <->
        g_hasErr g = true
        \/ exists p, (lo <= p < hi)%nat /\ is_Some (slot_err (reply_at rs p)))
  /\ (forall k, is_Some (g_result g !! k) -> is_Some (g_result g' !! k))
  /\ (forall p key bs, (lo <= p < hi)%nat -> keys !! p = Some key ->
        reply_at rs p = Some bs -> (4 <= length bs)%nat ->
        is_Some (g_result g' !! key)).

End Redis.

(** ** The delete coordinator of package [nds] *)

Module Nds.
Import Mem St.
Local Open Scope st_scope.

(** [memcache.Item] of the App Engine SDK, with the fields the coordinator
    sets. *)
Record memcache_Item := {
  Key : string;
  Flags : Z;
  Value : ByteSlice;
  Expiration : Z
}.

(** The types the coordinator handles without looking inside:
    [*datastore.Key]; the package's own [*context] and any other
    implementation of [appengine.Context]; Go [error] values; and the
    world outside (the global source of [math/rand], memcache, the
    datastore). *)
Class Types := {
  datastore_Key : Type;
  context : Type;
  foreign_context : Type;
  error : Type;
  W : Type
}.

(** An [appengine.Context] value: the type assertion of line 13 tells the
    package's own context from the others. *)
Inductive appengine_Context `{Types} :=
| FromNewContext (cc : context)
| OtherContext (c : foreign_context).

(** What the file uses and does not declare: the method [Incomplete] of a
    key and [datastore.ErrInvalidKey]; from elsewhere in package [nds] the
    key mapping, the lock payload and the lock duration; and the three
    calls to the outside, as transitions of the world giving the Go
    result. *)
Class Env `{Types} := {
  Incomplete : datastore_Key -> bool;
  ErrInvalidKey : error;
  createMemcacheKey : datastore_Key -> string;
  memcacheLock : ByteSlice;
  memcacheLockTime : Z;
  rand_Uint32 : W -> Z * W;
  memcache_SetMulti :
    appengine_Context -> list memcache_Item -> W -> option error * W;
  datastore_DeleteMulti :
    appengine_Context -> list datastore_Key -> W -> option error * W
}.

(** One call to the outside, with what it returned. *)
Inductive Call `{Types} :=
| CallRand (v : Z)
| CallSetMulti (c : appengine_Context) (items : list memcache_Item)
    (err : option error)
| CallDeleteMulti (c : appengine_Context) (keys : list datastore_Key)
    (err : option error).

(** The world and the calls made so far, oldest first. *)
Record State `{Types} := { world : W; calls : list Call }.

Section Coordinator.
Context `{Env}.

Definition Uint32 : M State Z :=
  fun s => let (v, w) := rand_Uint32 (world s) in
           (v, {| world := w; calls := calls s ++ [CallRand v] |}).

Definition SetMulti (c : appengine_Context) (items : list memcache_Item)
    : M State (option error) :=
  fun s => let (err, w) := memcache_SetMulti c items (world s) in
           (err, {| world := w;
                    calls := calls s ++ [CallSetMulti c items err] |}).

Definition datastoreDeleteMulti (c : appengine_Context)
    (keys : list datastore_Key) : M State (option error) :=
  fun s => let (err, w) := datastore_DeleteMulti c keys (world s) in
           (err, {| world := w;
                    calls := calls s ++ [CallDeleteMulti c keys err] |}).

(** The lock item of lines 31-36 for one key, given its random flags. *)
Definition lock_item (key : datastore_Key) (flags : Z) : memcache_Item :=
  {| Key := createMemcacheKey key;
     Flags := flags;
     Value := memcacheLock;
     Expiration := memcacheLockTime |}.

(** The loop of lines 26-38; [inl] is the early [return] of line 28. *)
Fixpoint lock_loop (keys : list datastore_Key)
    (lockMemcacheItems : list memcache_Item)
    : M State (error + list memcache_Item) :=
  match keys with
  | [] => ret (inr lockMemcacheItems)
  | key :: rest =>
      if Incomplete key then ret (inl ErrInvalidKey)
      else
        flags <- Uint32;;
        lock_loop rest (lockMemcacheItems ++ [lock_item key flags])
  end.

Definition deleteMulti (cc : context) (keys : list datastore_Key)
    : M State (option error) :=
  r <- lock_loop keys [];;
  match r with
  | inl e => ret (Some e)
  | inr lockMemcacheItems =>
      (* Make sure we can lock memcache with no errors before deleting. *)
      err <- SetMulti (FromNewContext cc) lockMemcacheItems;;
      match err with
      | Some e => ret (Some e)
      | None => datastoreDeleteMulti (FromNewContext cc) keys
      end
  end.

Definition DeleteMulti (c : appengine_Context) (keys : list datastore_Key)
    : M State (option error) :=
  match c with
  | FromNewContext cc => deleteMulti cc keys
  | OtherContext _ => datastoreDeleteMulti c keys
  end.

(** [Delete] is a wrapper around [DeleteMulti]. *)
Definition Delete (c : appengine_Context) (key : datastore_Key)
    : M State (option error) :=
  DeleteMulti c [key].

End Coordinator.
End Nds.

(** ** Stand-ins for the outside, to run the code on concrete inputs *)

(** A scripted Redis connection: it hands out, in order, the results it
    was loaded with. *)
Module ScriptedConn.
Import Redis.

Inductive reply :=
| RNil
| RInt (n : Z)
| RStatus (s : string)
| RBulks (l : list (option (list byte))).

Record tconn := {
  t_send : list (option redis_err);
  t_flush : option redis_err;
  t_recv : list (reply * option redis_err);
  t_do : reply * option redis_err
}.

Definition t_Send (cmd : Command) (c : tconn) : option redis_err * tconn :=
  (hd None (t_send c),
   {| t_send := tl (t_send c); t_flush := t_flush c; t_recv := t_recv c;
      t_do := t_do c |}).

Definition t_Receive (c : tconn) : (reply * option redis_err) * tconn :=
  (hd (RNil, Some (redis_Error "EOF")) (t_recv c),
   {| t_send := t_send c; t_flush := t_flush c; t_recv := tl (t_recv c);
      t_do := t_do c |}).

Definition t_Int64 (r : reply * option redis_err) : Z * option redis_err :=
  match r with
  | (_, Some e) => (0, Some e)
  | (RInt n, None) => (n, None)
  | (RNil, None) => (0, Some redis_ErrNil)
  | (_, None) => (0, Some (redis_Error "redigo: unexpected type for Int64"))
  end.

Definition t_ByteSlices (r : reply * option redis_err)
    : list (option (list byte)) * option redis_err :=
  match r with
  | (_, Some e) => ([], Some e)
  | (RBulks l, None) => (l, None)
  | (RNil, None) => ([], Some redis_ErrNil)
  | (_, None) =>
      ([], Some (redis_Error "redigo: unexpected type for ByteSlices"))
  end.

#[export] Instance tconn_Conn : Conn tconn := {|
  Reply := reply;
  conn_Send := t_Send;
  conn_Flush := fun c => (t_flush c, c);
  conn_Receive := t_Receive;
  conn_Do := fun _ c => (t_do c, c);
  conn_Close := fun c => c;
  redis_Int64 := t_Int64;
  redis_ByteSlices := t_ByteSlices
|}.

(** A connection on which every send and the flush succeed, and whose
    replies are [rs]. *)
Definition replying (rs : list (reply * option redis_err)) : tconn :=
  {| t_send := []; t_flush := None; t_recv := rs; t_do := (RNil, None) |}.

(** A connection that answers MGET with [l]. *)
Definition answering (l : list (option (list byte))) : tconn :=
  {| t_send := []; t_flush := None; t_recv := []; t_do := (RBulks l, None) |}.

End ScriptedConn.

(** A small world for the coordinator: string-named keys, a linear
    congruential random source, and a memcache and a datastore that
    answer what they were loaded with. *)
Module ScriptedWorld.
Import Nds.

Record key := { k_name : string; k_incomplete : bool }.

Record tworld := {
  seed : Z;
  set_err : option string;
  del_err : option string
}.

#[export] Instance world_Types : Types := {|
  datastore_Key := key;
  context := unit;
  foreign_context := unit;
  error := string;
  W := tworld
|}.

Definition next_seed (z : Z) : Z := (z * 1103515245 + 12345) mod 2 ^ 32.

#[export] Instance world_Env : Env := {|
  Incomplete := k_incomplete;
  ErrInvalidKey := "datastore: invalid key";
  createMemcacheKey := fun k => String.append "NDS0:" (k_name k);
  memcacheLock := None;
  memcacheLockTime := 32000000000;
  rand_Uint32 := fun w =>
    (next_seed (seed w),
     {| seed := next_seed (seed w); set_err := set_err w;
        del_err := del_err w |});
  memcache_SetMulti := fun _ _ w => (set_err w, w);
  datastore_DeleteMulti := fun _ _ w => (del_err w, w)
|}.

Definition start (w : tworld) : State := {| world := w; calls := [] |}.

End ScriptedWorld.

(** A small Redis server for the Lua script to run on: a map from key to
    value and time to live in milliseconds, with GET and SET (plain or
    with PX; like Redis it refuses a PX that is not positive). *)
Module MiniServer.
Import Redis.

Abbreviation Server := (gmap string (list byte * option Z)).

Definition redis_call (cmd : Command) (sv : Server) : LuaValue * Server :=
  match cmd_args cmd with
  | [ArgString k] =>
      if String.eqb (cmd_name cmd) "get"
      then (match sv !! k with
            | Some (v, _) => LuaString v
            | None => LuaFalse
            end, sv)
      else (LuaError "ERR unknown command", sv)
  | [ArgString k; ArgBytes v] =>
      if String.eqb (cmd_name cmd) "SET"
      then (LuaStatus "OK", <[k := (v, None)]> sv)
      else (LuaError "ERR unknown command", sv)
  | [ArgString k; ArgBytes v; ArgString px; ArgInt64 exp] =>
      if String.eqb (cmd_name cmd) "SET" && String.eqb px "PX"
      then if 0 <? exp
           then (LuaStatus "OK", <[k := (v, Some exp)]> sv)
           else (LuaError "ERR invalid expire time in set", sv)
      else (LuaError "ERR unknown command", sv)
  | _ => (LuaError "ERR unknown command", sv)
  end.

End MiniServer.

(** ** Concrete inputs *)

Module Inputs.
Import Mem Redis ScriptedConn ScriptedWorld.

(** Two complete keys, and a batch whose second key is incomplete. *)
Definition key_a : key := {| k_name := "a"; k_incomplete := false |}.
Definition key_b : key := {| k_name := "b"; k_incomplete := false |}.
Definition key_new : key := {| k_name := ""; k_incomplete := true |}.

Definition world_ok : tworld :=
  {| seed := 1; set_err := None; del_err := None |}.

Definition world_lock_fails : tworld :=
  {| seed := 1; set_err := Some "memcache: server error"; del_err := None |}.

(** A heap with the one-byte array "x", and the item
    [Item{Key: "a", Flags: 7, Value: "x"}] over it. *)
Definition heap_x : Heap := [[x78]].

Definition item_a : Item :=
  {| Key := "a"; Value := Some (Slice 0 0 1); Flags := 7;
     Expiration := 0; casInfo := CASInfo_nil |}.

(** The same item with a token (the array "old", number 1 of the heap)
    and an expiration of 1.5 ms. *)
Definition heap_cas : Heap := [[x78]; [x6f; x6c; x64]].

Definition item_cas : Item :=
  {| Key := "a"; Value := Some (Slice 0 0 1); Flags := 7;
     Expiration := 1500000; casInfo := CASInfo_bytes (Some (Slice 1 0 3)) |}.

(** The payload of [item_a]: flags 7, little-endian, then "x". *)
Definition payload_a : list byte := [x07; x00; x00; x00; x78].

Definition conflict : reply * option redis_err :=
  (RNil, Some (redis_Error "cas conflict")).

(** A connection on which the send of the only command and the flush
    fail. *)
Definition broken : tconn :=
  {| t_send := [Some (redis_Error "write: broken pipe")];
     t_flush := Some (redis_Error "write: broken pipe");
     t_recv := []; t_do := (RNil, None) |}.

(** A server that holds a well-formed payload for "a", nothing for "b"
    and a one-byte payload for "c"; and the three keys. *)
Definition srv_ac : gmap string (list byte) :=
  <["a" := payload_a]> (<["c" := [x01]]> ∅).

Definition keys_abc : list string := ["a"; "b"; "c"].

End Inputs.

(** ** More words on the backend's calls and errors *)

Module RedisWords.
Import Wire Mem St Redis.
Local Open Scope st_scope.

(** Kinds of errors. *)
Definition is_conn_err (e : error) : bool :=
  match e with ConnErr _ => true | _ => false end.

Definition is_add_err (e : error) : bool :=
  match e with ConnErr _ | ErrNotStored => true | _ => false end.

Definition is_cas_err (e : error) : bool :=
  match e with
  | ConnErr _ | ErrNotStored | ErrCASConflict => true
  | _ => false
  end.

Definition is_del_err (e : error) : bool :=
  match e with ConnErr _ | ErrCacheMiss => true | _ => false end.

(** The result of a batch writer is nil, a connection error, or a
    [MultiError] as long as the batch with a slot that is not nil and all
    of whose errors are of kind [P]. *)
Definition batch_error_of (P : error -> bool) (n : nat)
    (r : option error) : Prop :=
  match r with
  | None => True
  | Some (ConnErr _) => True
  | Some (MultiError me) =>
      length me = n
      /\ (exists i e, me !! i = Some (Some e))
      /\ forall i e, me !! i = Some (Some e) -> P e = true
  | Some _ => False
  end.

(** The calls the sender goroutine makes, and those the caller makes. *)
Definition by_sender (c : Call) : bool :=
  match c with CallSend _ _ | CallFlush _ => true | _ => false end.

Definition by_caller (c : Call) : bool :=
  match c with CallReceive _ | CallClose => true | _ => false end.

(** The calls of a batch of [n] slots whose commands are [cmds], as the
    two goroutines make them: the sender sends the commands in order and
    then flushes, once; the caller awaits [n] replies at most and then
    closes; and no other call is made.  How the calls of the one fall
    between those of the other is left open. *)
Definition two_goroutines (cmds : list Command) (n : nat) (cs : list Call)
    : Prop :=
  (exists (errs : list (option redis_err)) (flushErr : option redis_err),
      length errs = length cmds
      /\ List.filter by_sender cs
         = zip_with CallSend cmds errs ++ [CallFlush flushErr])
  /\ (exists recvs : list (option redis_err),
        (length recvs <= n)%nat
        /\ List.filter by_caller cs = (CallReceive <$> recvs) ++ [CallClose])
  /\ Forall (fun c => by_sender c || by_caller c = true) cs.

Section Writers.
Context {C : Type} `{Conn C}.

(** A computation that makes one [Receive] call and no other. *)
Definition recv_one {A} (recv : M (ConnState C) A) : Prop :=
  forall s, exists e, calls (recv s).2 = calls s ++ [CallReceive e].

(** Every error in a [MultiError] is of kind [P]. *)
Definition slots_of (P : error -> bool) (me : MultiErr) : Prop :=
  forall i e, me !! i = Some (Some e) -> P e = true.

(** A connection on which every send, the flush and every receive
    succeed. *)
Definition healthy : Prop :=
  (forall cmd c, (conn_Send cmd c).1 = None)
  /\ (forall c, (conn_Flush c).1 = None)
  /\ (forall c, (conn_Receive c).1.2 = None).

(** The slot the sender is at or, past the last one, [n]. *)
Definition sender_pos (n : nat) (pc : SenderPC) : nat :=
  match pc with
  | SendAt i => i
  | SendFailed i _ => S i
  | Flushed _ | SenderDone => n
  end.

(** The commands among the jobs of the sender. *)
Definition commands (jobs : list Job) : list Command := omap id jobs.

(** Some slot holds an error. *)
Definition has_error (me : MultiErr) : Prop :=
  exists j e, me !! j = Some (Some e).

(** Invariants of the runs.  The commands sent so far are those of the
    slots the sender is past. *)
Definition sent_inv (jobs : list Job) (m : Machine (C:=C)) : Prop :=
  sent (calls (m_conn m))
  = commands (take (sender_pos (length jobs) (m_sender m)) jobs).

(** The errors in the slots, those about to be stored and the result are
    of kind [P]; and [hasErr] is set only with an error in some slot. *)
Definition kinds_inv (P : error -> bool) (n : nat) (m : Machine (C:=C)) : Prop :=
  length (m_me m) = n
  /\ (forall i e, m_me m !! i = Some (Some e) -> P e = true)
  /\ match m_caller m with
     | LoopAt _ hasErr | AfterLoop hasErr =>
         hasErr = true -> has_error (m_me m)
     | SlotAt i hasErr | ReceiveAt i hasErr =>
         (i < n)%nat /\ (hasErr = true -> has_error (m_me m))
     | ReplyFailed i e => (i < n)%nat /\ P e = true
     | Returned r | CallerDone r => batch_error_of P n r
     end.

(** Nothing has failed: no error is stored or about to be, and the
    result, once made, is nil. *)
Definition calm_inv (m : Machine (C:=C)) : Prop :=
  m_flushErr m = None
  /\ (forall j e, m_me m !! j <> Some (Some e))
  /\ match m_sender m with
     | SendFailed _ _ | Flushed (Some _) => False
     | _ => True
     end
  /\ match m_caller m with
     | LoopAt _ hasErr | SlotAt _ hasErr | ReceiveAt _ hasErr
     | AfterLoop hasErr => hasErr = false
     | ReplyFailed _ _ => False
     | Returned r | CallerDone r => r = None
     end.

(** The calls of the sender so far are the sends of the slots it is past
    and then, once made, the flush. *)
Definition sender_inv (jobs : list Job) (m : Machine (C:=C)) : Prop :=
  exists errs : list (option redis_err),
    let cmds :=
      commands (take (sender_pos (length jobs) (m_sender m)) jobs) in
    length errs = length cmds
    /\ match m_sender m with
       | SendAt _ | SendFailed _ _ =>
           List.filter by_sender (calls (m_conn m))
           = zip_with CallSend cmds errs
       | Flushed e =>
           List.filter by_sender (calls (m_conn m))
           = zip_with CallSend cmds errs ++ [CallFlush e]
       | SenderDone =>
           exists e, List.filter by_sender (calls (m_conn m))
                     = zip_with CallSend cmds errs ++ [CallFlush e]
       end.

(** The calls of the caller so far are receives, one per slot it is past
    at most, and then, once made, the close. *)
Definition caller_inv (n : nat) (m : Machine (C:=C)) : Prop :=
  exists recvs : list (option redis_err),
    match m_caller m with
    | LoopAt i _ =>
        (i <= n)%nat /\ (length recvs <= i)%nat
        /\ List.filter by_caller (calls (m_conn m)) = CallReceive <$> recvs
    | SlotAt i _ | ReceiveAt i _ =>
        (i < n)%nat /\ (length recvs <= i)%nat
        /\ List.filter by_caller (calls (m_conn m)) = CallReceive <$> recvs
    | ReplyFailed i _ =>
        (i < n)%nat /\ (length recvs <= S i)%nat
        /\ List.filter by_caller (calls (m_conn m)) = CallReceive <$> recvs
    | AfterLoop _ | Returned _ =>
        (length recvs <= n)%nat
        /\ List.filter by_caller (calls (m_conn m)) = CallReceive <$> recvs
    | CallerDone _ =>
        (length recvs <= n)%nat
        /\ List.filter by_caller (calls (m_conn m))
           = (CallReceive <$> recvs) ++ [CallClose]
    end.

(** The steps a goroutine has left at most, [n] being the number of
    slots. *)
Definition sender_rank (n : nat) (pc : SenderPC) : nat :=
  match pc with
  | SendAt i => 2 * (n - i) + 2
  | SendFailed i _ => 2 * (n - S i) + 3
  | Flushed _ => 1
  | SenderDone => 0
  end.

Definition caller_rank (n : nat) (pc : CallerPC) : nat :=
  match pc with
  | LoopAt i _ => 4 * (n - i) + 3
  | SlotAt i _ => 4 * (n - S i) + 6
  | ReceiveAt i _ => 4 * (n - S i) + 5
  | ReplyFailed i _ => 4 * (n - S i) + 4
  | AfterLoop _ => 2
  | Returned _ => 1
  | CallerDone _ => 0
  end.

End Writers.

(** The error of line 283, for a payload of fewer than four bytes. *)
Definition is_short_err (e : error) : bool :=
  match e with ErrShortItem got => (got <? 4)%nat | _ => false end.

(** An item as [GetMulti] makes them for the map entry of [k], the keys
    asked for being [keys]: it carries its map key, which was asked for;
    no expiration; a token; 32-bit flags; and a value that is not the nil
    slice. *)
Definition get_item_ok (keys : list string) (k : string) (it : Item)
    : Prop :=
  k ∈ keys /\ Key it = k /\ Expiration it = 0 /\ has_token it = true
  /\ is_uint32 (Flags it) /\ Value it <> None.

(** The only calls made on the connection a call took are one [Do] of
    [cmd] and the close. *)
Definition asks_once {C A} (cmd : Command) (out : A * option (ConnState C))
    : Prop :=
  forall s, out.2 = Some s ->
    exists e, calls s = [CallDo cmd e; CallClose].

End RedisWords.

(** ** [NewCacher], lines 44-53 *)

Module Cacher.
Import St Redis.

Section NewCacher.
Context {C : Type} `{Conn C}.

(** The helper [redis.String] of redigo, and the text of the constant
    [casScript]. *)
Variable redis_String : Reply * option redis_err -> string * option redis_err.
Variable casScript_text : string.

Definition load_command : Command :=
  {| cmd_name := "SCRIPT";
     cmd_args := [ArgString "LOAD"; ArgString casScript_text] |}.

(** [NewCacher(ctx, pool)] with the package variable [casSha] as it
    finds it.  The results are the cacher ([None] for nil) and the error,
    [casSha] as the call leaves it, and the connection it took, if any,
    as it leaves it. *)
Definition NewCacher (pool : redis_err + C) (casSha : string)
    : (option backend * option error) * string * option (ConnState C) :=
  match pool with
  | inl e => ((None, Some (ConnErr e)), casSha, None)
  | inr c =>
      let (r, s) := Do load_command {| conn := c; calls := [] |} in
      let (casSha, err) := redis_String r in
      match err with
      | Some e => ((None, Some (ConnErr e)), casSha, Some s)
      | None => ((Some {| store := pool |}, None), casSha, Some s)
      end
  end.

End NewCacher.
End Cacher.

(** A connection on which everything succeeds and every DEL deletes one
    key. *)
Module SteadyConn.
Import Redis.

Inductive sconn := Steady.

#[export] Instance sconn_Conn : Conn sconn := {|
  Reply := unit;
  conn_Send := fun _ c => (None, c);
  conn_Flush := fun c => (None, c);
  conn_Receive := fun c => ((tt, None), c);
  conn_Do := fun _ c => ((tt, None), c);
  conn_Close := fun c => c;
  redis_Int64 := fun r => (1, r.2);
  redis_ByteSlices := fun r => ([], r.2)
|}.

End SteadyConn.

(** ** More words on the delete coordinator *)

Module NdsWords.
Import St Nds.
Local Open Scope st_scope.

Section Draws.
Context `{Env}.

(** [n] draws of [rand.Uint32], one after the other. *)
Fixpoint draws (n : nat) : M State (list Z) :=
  match n with
  | O => ret []
  | S n' =>
      v <- Uint32;;
      vs <- draws n';;
      ret (v :: vs)
  end.

(** The results of [n] calls of the random source from the world [w],
    one after the other, and the world they leave. *)
Fixpoint rand_draws (n : nat) (w : W) : list Z * W :=
  match n with
  | O => ([], w)
  | S n' =>
      let (v, w1) := rand_Uint32 w in
      let (vs, w2) := rand_draws n' w1 in
      (v :: vs, w2)
  end.

End Draws.
End NdsWords.

(** ** More concrete inputs *)

Module MoreInputs.
Import Mem Redis ScriptedConn Inputs.

(** The item [Item{Key: "b", Flags: 9, Value: "x"}] over [heap_x]. *)
Definition item_b : Item :=
  {| Key := "b"; Value := Some (Slice 0 0 1); Flags := 9;
     Expiration := 0; casInfo := CASInfo_nil |}.

(** [item_a] with an expiration of half a millisecond. *)
Definition item_brief : Item :=
  {| Key := "a"; Value := Some (Slice 0 0 1); Flags := 7;
     Expiration := 500000; casInfo := CASInfo_nil |}.

(** A pool that has no connection to give. *)
Definition no_pool : backend (C:=tconn) :=
  {| store := inl (redis_Error "redigo: connection pool exhausted") |}.

(** [redis.String] on the replies of the scripted connection. *)
Definition t_String (r : reply * option redis_err)
    : string * option redis_err :=
  match r with
  | (_, Some e) => (EmptyString, Some e)
  | (RStatus s, None) => (s, None)
  | (RNil, None) => (EmptyString, Some redis_ErrNil)
  | (_, None) =>
      (EmptyString, Some (redis_Error "redigo: unexpected type for String"))
  end.

(** A connection that answers SCRIPT LOAD with a digest, and one on which
    the call fails. *)
Definition loader : tconn :=
  {| t_send := []; t_flush := None; t_recv := [];
     t_do := (RStatus "e0e1f9fabfc9d4800c877a703b823ac0578ff831", None) |}.

Definition no_loader : tconn :=
  {| t_send := []; t_flush := None; t_recv := [];
     t_do := (RNil, Some (redis_Error "ERR unknown command")) |}.

End MoreInputs.

(** * Properties *)

Module WireFacts.
Import Wire.

Lemma Z_of_byte_of_Z v : Z_of_byte (byte_of_Z v) = Z.land v 255.
Proof.
  unfold Z_of_byte, byte_of_Z.
  assert (Hr : 0 <= Z.land v 255 < 256).
  { change 255 with (Z.ones 8). rewrite Z.land_ones by lia.
    apply Z.mod_pos_bound. lia. }
  destruct (Byte.of_N (Z.to_N (Z.land v 255))) as [b|] eqn:E.
  - simpl. apply Byte.to_of_N in E. rewrite E. lia.
  - apply Byte.of_N_None_iff in E. lia.
Qed.

Lemma Z_of_byte_range b : 0 <= Z_of_byte b < 256.
Proof.
  unfold Z_of_byte. pose proof (Byte.to_N_bounded b). lia.
Qed.

Lemma byte_of_Z_of_byte b : byte_of_Z (Z_of_byte b) = b.
Proof.
  unfold byte_of_Z.
  pose proof (Z_of_byte_range b) as Hr.
  change 255 with (Z.ones 8). rewrite Z.land_ones by lia.
  rewrite Z.mod_small by lia.
  unfold Z_of_byte. rewrite N2Z.id, Byte.of_to_N. reflexivity.
Qed.

(** Bit [n] of the byte cut out of [v] at bit offset [k]. *)
Lemma testbit_byte_at v k n :
  0 <= k -> 0 <= n ->
  Z.testbit (Z.shiftl (Z.land (Z.shiftr v k) 255) k) n
  = (Z.testbit v n && (k <=? n) && (n <? k + 8))%bool.
Proof.
  intros Hk Hn.
  destruct (Z.leb_spec k n) as [Hle|Hlt].
  - rewrite Z.shiftl_spec by lia.
    rewrite Z.land_spec, Z.shiftr_spec by lia.
    replace (n - k + k) with n by lia.
    change 255 with (Z.ones 8).
    destruct (Z.ltb_spec n (k + 8)).
    + rewrite Z.ones_spec_low by lia. now rewrite !andb_true_r.
    + rewrite Z.ones_spec_high by lia. now rewrite !andb_false_r.
  - rewrite Z.shiftl_spec_low by lia. now rewrite andb_false_r.
Qed.

Lemma Uint32_PutUint32_bits v :
  Uint32 (byte_of_Z v) (byte_of_Z (Z.shiftr v 8))
         (byte_of_Z (Z.shiftr v 16)) (byte_of_Z (Z.shiftr v 24))
  = Z.land v (Z.ones 32).
Proof.
  unfold Uint32. rewrite !Z_of_byte_of_Z.
  apply Z.bits_inj'. intros n Hn.
  rewrite !Z.lor_spec.
  rewrite <- (Z.shiftl_0_r (Z.land v 255)).
  rewrite <- (Z.shiftr_0_r v) at 1.
  rewrite !testbit_byte_at by lia.
  rewrite Z.land_spec.
  destruct (Z.ltb_spec n 32).
  - rewrite Z.ones_spec_low by lia.
    destruct (Z.testbit v n); simpl; [|reflexivity].
    destruct (Z.leb_spec 0 n), (Z.ltb_spec n (0 + 8)),
      (Z.leb_spec 8 n), (Z.ltb_spec n (8 + 8)),
      (Z.leb_spec 16 n), (Z.ltb_spec n (16 + 8)),
      (Z.leb_spec 24 n), (Z.ltb_spec n (24 + 8)); simpl; try reflexivity; lia.
  - rewrite Z.ones_spec_high by lia.
    destruct (Z.ltb_spec n (0 + 8)), (Z.ltb_spec n (8 + 8)),
      (Z.ltb_spec n (16 + 8)), (Z.ltb_spec n (24 + 8)); lia.
Qed.

(** Reading back what [binary.Write] wrote gives the value again, and
    leaves the rest of the buffer. *)
Lemma binary_Read_Write_uint32 v rest :
  is_uint32 v ->
  binary_Read_uint32 (binary_Write_uint32 [] v ++ rest) = (inr v, rest).
Proof.
  intros Hv. unfold binary_Write_uint32, PutUint32. simpl.
  rewrite Uint32_PutUint32_bits, Z.land_ones by lia.
  unfold is_uint32 in Hv. rewrite Z.mod_small by lia. reflexivity.
Qed.

Lemma Uint32_range b0 b1 b2 b3 : is_uint32 (Uint32 b0 b1 b2 b3).
Proof.
  unfold is_uint32, Uint32.
  pose proof (Z_of_byte_range b0). pose proof (Z_of_byte_range b1).
  pose proof (Z_of_byte_range b2). pose proof (Z_of_byte_range b3).
  rewrite !Z.shiftl_mul_pow2 by lia.
  split.
  - repeat (apply Z.lor_nonneg; split); lia.
  - assert (Hlt : forall a b n, 0 <= a < 2 ^ n -> 0 <= b < 2 ^ n -> 0 <= n ->
                                Z.lor a b < 2 ^ n).
    { intros a b n Ha Hb Hn0.
      destruct (Z.eq_dec a 0) as [->|Ha0]; [rewrite Z.lor_0_l; lia|].
      destruct (Z.eq_dec b 0) as [->|Hb0]; [rewrite Z.lor_0_r; lia|].
      assert (0 < Z.lor a b).
      { assert (0 <= Z.lor a b) by (apply Z.lor_nonneg; lia).
        assert (Z.lor a b <> 0) by (rewrite Z.lor_eq_0_iff; lia). lia. }
      apply Z.log2_lt_pow2; [lia|].
      rewrite Z.log2_lor by lia.
      apply Z.max_lub_lt; apply Z.log2_lt_pow2; lia. }
    assert (H00 : 0 <= Z.lor (Z_of_byte b0) (Z_of_byte b1 * 2 ^ 8))
      by (apply Z.lor_nonneg; lia).
    assert (H01 : 0 <= Z.lor (Z.lor (Z_of_byte b0) (Z_of_byte b1 * 2 ^ 8))
                             (Z_of_byte b2 * 2 ^ 16))
      by (apply Z.lor_nonneg; lia).
    apply Hlt; [split; [lia|]|lia|lia].
    apply Hlt; [split; [lia|]|lia|lia].
    apply Hlt; lia.
Qed.

Lemma byte_of_Z_land v b : Z.land v 255 = Z_of_byte b -> byte_of_Z v = b.
Proof.
  intros Hv. unfold byte_of_Z. rewrite Hv.
  unfold Z_of_byte. now rewrite N2Z.id, Byte.of_to_N.
Qed.

(** A byte has no bit outside its eight. *)
Lemma testbit_byte_high b n : ~ (0 <= n < 8) -> Z.testbit (Z_of_byte b) n = false.
Proof.
  intros Hn. destruct (Z.ltb_spec n 0); [now apply Z.testbit_neg_r|].
  pose proof (Z_of_byte_range b).
  rewrite <- (Z.mod_small (Z_of_byte b) (2 ^ 8)) by lia.
  apply Z.mod_pow2_bits_high. lia.
Qed.

Lemma testbit_Uint32 b0 b1 b2 b3 n :
  0 <= n ->
  Z.testbit (Uint32 b0 b1 b2 b3) n
  = (Z.testbit (Z_of_byte b0) n || Z.testbit (Z_of_byte b1) (n - 8)
     || Z.testbit (Z_of_byte b2) (n - 16)
     || Z.testbit (Z_of_byte b3) (n - 24))%bool.
Proof.
  intros Hn. unfold Uint32.
  now rewrite !Z.lor_spec, !Z.shiftl_spec by lia.
Qed.

(** The byte of [Uint32 b0 b1 b2 b3] at bit offset [k], for [k] one of 0,
    8, 16 and 24, is the byte put there. *)
Lemma byte_at_Uint32 b0 b1 b2 b3 k b :
  (k = 0 /\ b = b0) \/ (k = 8 /\ b = b1) \/ (k = 16 /\ b = b2)
  \/ (k = 24 /\ b = b3) ->
  byte_of_Z (Z.shiftr (Uint32 b0 b1 b2 b3) k) = b.
Proof.
  intros Hk. apply byte_of_Z_land.
  apply Z.bits_inj'. intros n Hn.
  rewrite Z.land_spec, Z.shiftr_spec by lia.
  change 255 with (Z.ones 8).
  destruct (Z.ltb_spec n 8) as [Hlt|Hge].
  - rewrite Z.ones_spec_low, andb_true_r by lia.
    rewrite testbit_Uint32 by lia.
    destruct Hk as [[-> ->]|[[-> ->]|[[-> ->]|[-> ->]]]].
    + rewrite (testbit_byte_high b1), (testbit_byte_high b2),
        (testbit_byte_high b3) by lia.
      rewrite !orb_false_r. f_equal. lia.
    + rewrite (testbit_byte_high b0), (testbit_byte_high b2),
        (testbit_byte_high b3) by lia.
      rewrite !orb_false_r. cbn [orb]. f_equal. lia.
    + rewrite (testbit_byte_high b0), (testbit_byte_high b1),
        (testbit_byte_high b3) by lia.
      rewrite !orb_false_r. cbn [orb]. f_equal. lia.
    + rewrite (testbit_byte_high b0), (testbit_byte_high b1),
        (testbit_byte_high b2) by lia.
      cbn [orb]. f_equal. lia.
  - rewrite Z.ones_spec_high, andb_false_r by lia.
    symmetry. apply testbit_byte_high. lia.
Qed.

(** Writing back the flags read gives the four bytes read. *)
Lemma PutUint32_Uint32 b0 b1 b2 b3 :
  PutUint32 (Uint32 b0 b1 b2 b3) = [b0; b1; b2; b3].
Proof.
  unfold PutUint32.
  rewrite <- (Z.shiftr_0_r (Uint32 b0 b1 b2 b3)) at 1.
  rewrite (byte_at_Uint32 b0 b1 b2 b3 0 b0),
    (byte_at_Uint32 b0 b1 b2 b3 8 b1),
    (byte_at_Uint32 b0 b1 b2 b3 16 b2),
    (byte_at_Uint32 b0 b1 b2 b3 24 b3) by tauto.
  reflexivity.
Qed.

(** A payload of four bytes or more is its flags, written out, followed by
    what [binary.Read] leaves in the buffer. *)
Lemma binary_Read_uint32_inv (bs : list byte) :
  (4 <= length bs)%nat ->
  exists flags,
    binary_Read_uint32 bs = (inr flags, drop 4 bs)
    /\ bs = PutUint32 flags ++ drop 4 bs.
Proof.
  intros Hlen.
  destruct bs as [|b0 [|b1 [|b2 [|b3 rest]]]]; cbn in Hlen; try lia.
  exists (Uint32 b0 b1 b2 b3). split; [reflexivity|].
  now rewrite PutUint32_Uint32.
Qed.

End WireFacts.

Module MemFacts.
Import Mem.

Lemma slice_bytes_alloc h bs :
  slice_bytes (alloc h bs).1 (alloc h bs).2 = bs.
Proof.
  unfold slice_bytes, alloc, array_of. cbn [fst snd s_arr s_off s_len].
  rewrite lookup_app_r by lia.
  replace (length h - length h)%nat with 0%nat by lia.
  cbn. apply firstn_all.
Qed.

(** Allocation leaves the slices that were there before as they were. *)
Lemma slice_bytes_alloc_old h bs s :
  (s_arr s < length h)%nat ->
  slice_bytes (alloc h bs).1 s = slice_bytes h s.
Proof.
  intros Hlt. unfold slice_bytes, alloc, array_of. cbn [fst snd].
  rewrite lookup_app_l by lia. reflexivity.
Qed.

Lemma slice_bytes_from h s n :
  (n <= s_len s)%nat ->
  slice_bytes h (slice_from s n) = drop n (slice_bytes h s).
Proof.
  intros Hn. unfold slice_bytes, slice_from. cbn [s_arr s_off s_len].
  rewrite <- drop_drop, take_drop_commute.
  replace (n + (s_len s - n))%nat with (s_len s) by lia. reflexivity.
Qed.

(** A write into another backing array is not seen through a slice. *)
Lemma slice_bytes_store_other h s a j b :
  a <> s_arr s ->
  slice_bytes (store_byte h a j b) s = slice_bytes h s.
Proof.
  intros Hne. unfold slice_bytes, store_byte, array_of.
  rewrite list_lookup_alter_ne by congruence. reflexivity.
Qed.

Lemma length_store_byte h a j b : length (store_byte h a j b) = length h.
Proof. unfold store_byte. apply length_alter. Qed.

Lemma slice_bytes_writes (h : Heap) ws s :
  Forall (fun w : nat * nat * byte => w.1.1 <> s_arr s) ws ->
  slice_bytes (writes h ws) s = slice_bytes h s.
Proof.
  revert h. induction ws as [|w ws IH]; intros h Hws; [reflexivity|].
  apply Forall_cons in Hws as [Hw Hws]. unfold writes in *. cbn [foldl].
  rewrite IH by assumption. now apply slice_bytes_store_other.
Qed.

End MemFacts.

Module StFacts.
Import St.

Lemma bind_run {S A B} (m : M S A) (k : A -> M S B) s :
  bind m k s = k (m s).1 (m s).2.
Proof. unfold bind. destruct (m s). reflexivity. Qed.

End StFacts.

(** ** The delete coordinator *)

Module NdsFacts.
Import Mem St Nds NdsWords StFacts.
Local Open Scope st_scope.

Section CoordinatorFacts.
Context `{Env}.

(** What the lock loop does on complete keys: one item per key, in order,
    each with a random draw of its own, and nothing but those draws
    reaches the outside. *)
Lemma lock_loop_complete (keys : list datastore_Key) :
  forall (acc : list memcache_Item) (s : State),
    (forall key, key ∈ keys -> Incomplete key = false) ->
    exists (items : list memcache_Item) (s' : State),
      lock_loop keys acc s = (inr (acc ++ items), s')
      /\ length items = length keys
      /\ calls s' = calls s ++ ((fun it => CallRand (Flags it)) <$> items)
      /\ (forall i key, keys !! i = Some key ->
            exists flags, items !! i = Some (lock_item key flags))
      /\ (forall it, it ∈ items -> exists w, Flags it = (rand_Uint32 w).1).
Proof.
  induction keys as [|key rest IH]; intros acc s Hc.
  - exists [], s. cbn. rewrite !app_nil_r.
    repeat split; try done. intros it Hit. inversion Hit.
  - cbn [lock_loop]. rewrite Hc by left.
    unfold bind, Uint32.
    destruct (rand_Uint32 (world s)) as [v w] eqn:Ev.
    edestruct (IH (acc ++ [lock_item key v])
                 {| world := w; calls := calls s ++ [CallRand v] |})
      as (items & s' & Hrun & Hlen & Hcalls & Hitems & Hfl).
    { intros k Hk. apply Hc. now right. }
    exists (lock_item key v :: items), s'.
    rewrite Hrun, <- app_assoc. cbn [app].
    repeat split.
    + cbn. now rewrite Hlen.
    + rewrite Hcalls. cbn. now rewrite <- app_assoc.
    + intros [|i] k Hk; cbn in Hk |- *.
      * inversion Hk; subst. now exists v.
      * now apply Hitems.
    + intros it Hit. apply elem_of_cons in Hit as [->|Hit].
      * exists (world s). now rewrite Ev.
      * now apply Hfl.
Qed.

(** On a batch with an incomplete key the loop takes the early return,
    having made nothing but random draws. *)
Lemma lock_loop_incomplete (keys : list datastore_Key) :
  forall (acc : list memcache_Item) (s : State),
    (exists key, key ∈ keys /\ Incomplete key = true) ->
    exists (vs : list Z) (s' : State),
      lock_loop keys acc s = (inl ErrInvalidKey, s')
      /\ calls s' = calls s ++ (CallRand <$> vs)
      /\ (length vs < length keys)%nat.
Proof.
  induction keys as [|key rest IH]; intros acc s (k & Hk & Hinc).
  - inversion Hk.
  - cbn [lock_loop]. destruct (Incomplete key) eqn:Ek.
    + exists [], s. cbn. rewrite app_nil_r. repeat split; try done; lia.
    + unfold bind, Uint32.
      destruct (rand_Uint32 (world s)) as [v w].
      apply elem_of_cons in Hk as [->|Hk]; [congruence|].
      edestruct (IH (acc ++ [lock_item key v])
                   {| world := w; calls := calls s ++ [CallRand v] |})
        as (vs & s' & Hrun & Hcalls & Hlen); [by eauto|].
      exists (v :: vs), s'. rewrite Hrun, Hcalls. cbn.
      rewrite <- app_assoc. repeat split; try done; lia.
Qed.

Lemma rand_draws_S (n : nat) (w : W) :
  rand_draws (S n) w
  = ((rand_Uint32 w).1 :: (rand_draws n (rand_Uint32 w).2).1,
     (rand_draws n (rand_Uint32 w).2).2).
Proof.
  cbn [rand_draws]. destruct (rand_Uint32 w) as [v w1]. cbn [fst snd].
  now destruct (rand_draws n w1).
Qed.

Lemma rand_draws_length (n : nat) :
  forall w, length (rand_draws n w).1 = n.
Proof.
  induction n as [|n IH]; intros w; [reflexivity|].
  rewrite rand_draws_S. cbn. now rewrite IH.
Qed.

(** The [i]-th of the draws is what the random source gives in the world
    that [i] draws leave. *)
Lemma rand_draws_lookup (n : nat) :
  forall w i, (i < n)%nat ->
    (rand_draws n w).1 !! i = Some (rand_Uint32 (rand_draws i w).2).1.
Proof.
  induction n as [|n IH]; intros w i Hi; [lia|].
  rewrite rand_draws_S. destruct i as [|i]; [reflexivity|].
  cbn [fst lookup list_lookup]. rewrite IH by lia.
  now rewrite rand_draws_S.
Qed.

(** The lock loop on complete keys: the items are the lock items of the
    keys with the draws of the random source as flags, and the world is
    the one these draws leave. *)
Lemma lock_loop_draws (keys : list datastore_Key) :
  forall (acc : list memcache_Item) (s : State),
    (forall key, key ∈ keys -> Incomplete key = false) ->
    let d := rand_draws (length keys) (world s) in
    lock_loop keys acc s
    = (inr (acc ++ zip_with lock_item keys d.1),
       {| world := d.2; calls := calls s ++ (CallRand <$> d.1) |}).
Proof.
  induction keys as [|key rest IH]; intros acc s Hc; cbn zeta.
  - cbn. destruct s. now rewrite !app_nil_r.
  - cbn [lock_loop length]. rewrite (Hc key) by left.
    rewrite bind_run, rand_draws_S. cbn [fst snd].
    rewrite IH by (intros k Hk; apply Hc; now right). cbn zeta.
    unfold Uint32. destruct (rand_Uint32 (world s)) as [v w].
    cbn [fst snd world calls zip_with fmap list_fmap].
    now rewrite <- !app_assoc.
Qed.

(** C1. On a batch of complete keys, [deleteMulti] draws one number per
    key and hands the lock items of the keys, in order, to memcache's
    SetMulti, in the world the draws leave.  If SetMulti returns an
    error, the coordinator returns this error, the world is the one
    SetMulti leaves and the datastore is not called.  If it returns none,
    the datastore's DeleteMulti is called next, on the keys and in the
    world SetMulti leaves, and the coordinator's result and final world
    are its result and world.  The draws and these calls are all that
    reaches the outside. *)
Theorem deleteMulti_locks_before_delete
    (cc : context) (keys : list datastore_Key) (s : State) :
  (forall key, key ∈ keys -> Incomplete key = false) ->
  let c := FromNewContext cc in
  let d := rand_draws (length keys) (world s) in
  let items := zip_with lock_item keys d.1 in
  let l := memcache_SetMulti c items d.2 in
  let del := datastore_DeleteMulti c keys l.2 in
  length items = length keys
  /\ deleteMulti cc keys s
     = match l.1 with
       | Some e =>
           (Some e,
            {| world := l.2;
               calls := calls s ++ (CallRand <$> d.1)
                        ++ [CallSetMulti c items (Some e)] |})
       | None =>
           (del.1,
            {| world := del.2;
               calls := calls s ++ (CallRand <$> d.1)
                        ++ [CallSetMulti c items None;
                            CallDeleteMulti c keys del.1] |})
       end.
Proof.
  intros Hc c d items l del. split.
  { unfold items, d. rewrite length_zip_with, rand_draws_length. lia. }
  unfold deleteMulti. rewrite bind_run.
  rewrite (lock_loop_draws keys [] s Hc). cbn zeta. cbn [fst snd app].
  fold d. fold items. rewrite bind_run. unfold SetMulti. cbn [world calls].
  fold c. fold l. subst del. clearbody l.
  destruct l as [[e|] w2]; cbn [fst snd].
  - unfold ret. now rewrite <- app_assoc.
  - unfold datastoreDeleteMulti. cbn [world calls].
    destruct (datastore_DeleteMulti c keys w2) as [r w3]. cbn [fst snd].
    now rewrite <- !app_assoc.
Qed.

(** C2. On a batch with an incomplete key, [deleteMulti] returns
    [ErrInvalidKey], and neither memcache's SetMulti nor the datastore's
    DeleteMulti is called: the calls it made are draws from the random
    source only, fewer than there are keys. *)
Theorem deleteMulti_incomplete_aborts
    (cc : context) (keys : list datastore_Key) (s : State) :
  (exists key, key ∈ keys /\ Incomplete key = true) ->
  exists (vs : list Z) (s' : State),
    deleteMulti cc keys s = (Some ErrInvalidKey, s')
    /\ calls s' = calls s ++ (CallRand <$> vs)
    /\ (length vs < length keys)%nat.
Proof.
  intros Hinc.
  destruct (lock_loop_incomplete keys [] s Hinc)
    as (vs & s' & Hrun & Hcalls & Hlen).
  exists vs, s'. unfold deleteMulti, bind. rewrite Hrun. auto.
Qed.

(** C7. On a batch of complete keys, the items [deleteMulti] hands to
    SetMulti are one per key, in the order of the keys.  The item of the
    [i]-th key has the key's memcache key, [memcacheLock] as value,
    [memcacheLockTime] as expiration, and as flags a number drawn for
    this item: what [rand.Uint32] returns in the world that the draws
    for the keys before it leave, a 32-bit value when the source gives
    such.  The draws made are these, one per item, in order. *)
Theorem deleteMulti_lock_items
    (cc : context) (keys : list datastore_Key) (s : State) :
  (forall w, Wire.is_uint32 (rand_Uint32 w).1) ->
  (forall key, key ∈ keys -> Incomplete key = false) ->
  exists (items : list memcache_Item) (e1 : option error) (tail : list Call),
    calls (deleteMulti cc keys s).2
    = calls s ++ ((fun it => CallRand (Flags it)) <$> items)
      ++ CallSetMulti (FromNewContext cc) items e1 :: tail
    /\ length items = length keys
    /\ forall i key, keys !! i = Some key ->
         let v := (rand_Uint32 (rand_draws i (world s)).2).1 in
         items !! i
         = Some {| Key := createMemcacheKey key;
                   Flags := v;
                   Value := memcacheLock;
                   Expiration := memcacheLockTime |}
         /\ Wire.is_uint32 v.
Proof.
  intros Hrand Hc.
  set (d := rand_draws (length keys) (world s)).
  set (items := zip_with lock_item keys d.1).
  assert (Hfl : (fun it => CallRand (Flags it)) <$> items = CallRand <$> d.1).
  { unfold items. pose proof (rand_draws_length (length keys) (world s)) as Hl.
    fold d in Hl. clearbody d. revert Hl. generalize d.1 as vs.
    induction keys as [|key rest IH]; intros [|v vs] Hl; try discriminate;
      [reflexivity|].
    cbn. f_equal. apply IH; [|cbn in Hl; lia].
    intros k Hk. apply Hc. now right. }
  assert (Hrun : exists e1 tail,
            calls (deleteMulti cc keys s).2
            = calls s ++ (CallRand <$> d.1)
              ++ CallSetMulti (FromNewContext cc) items e1 :: tail).
  { unfold deleteMulti. rewrite bind_run.
    rewrite (lock_loop_draws keys [] s Hc). cbn zeta. cbn [fst snd app].
    fold d. fold items. rewrite bind_run. unfold SetMulti. cbn [world calls].
    destruct (memcache_SetMulti (FromNewContext cc) items d.2) as [[e|] w2];
      cbn [fst snd].
    - exists (Some e), []. unfold ret. cbn [snd calls].
      now rewrite <- app_assoc.
    - unfold datastoreDeleteMulti. cbn [world calls].
      destruct (datastore_DeleteMulti (FromNewContext cc) keys w2) as [r w3].
      eexists None, [_]. cbn [snd calls]. now rewrite <- !app_assoc. }
  destruct Hrun as (e1 & tail & Hrun).
  exists items, e1, tail. split; [now rewrite Hfl|]. split.
  { unfold items. rewrite length_zip_with. unfold d.
    rewrite rand_draws_length. lia. }
  intros i key Hi. cbn zeta. split; [|apply Hrand].
  unfold items. rewrite lookup_zip_with, Hi. cbn [option_bind mbind].
  unfold d. rewrite rand_draws_lookup by (eapply lookup_lt_Some; eauto).
  reflexivity.
Qed.

(** C9. For a context that is not the package's own, [DeleteMulti] is the
    datastore's DeleteMulti on that context and those keys: its result is
    the datastore's, and that one call is all that reaches the outside (no
    random draw, no memcache call). *)
Theorem DeleteMulti_foreign_context
    (c : foreign_context) (keys : list datastore_Key) (s : State) :
  exists (r : option error) (s' : State),
    DeleteMulti (OtherContext c) keys s = (r, s')
    /\ (r, world s') = datastore_DeleteMulti (OtherContext c) keys (world s)
    /\ calls s' = calls s ++ [CallDeleteMulti (OtherContext c) keys r].
Proof.
  cbn [DeleteMulti]. unfold datastoreDeleteMulti.
  destruct (datastore_DeleteMulti (OtherContext c) keys (world s))
    as [r w] eqn:E.
  eexists _, _. split; [reflexivity|]. cbn [world calls]. auto.
Qed.

End CoordinatorFacts.
End NdsFacts.

(** ** The Redis backend: the batch writers *)

Module RedisFacts.
Import Wire Mem St Redis WireFacts MemFacts StFacts.
Local Open Scope st_scope.

Section BackendFacts.
Context {C : Type} `{Conn C}.
Variable casSha : string.

Lemma flushed_app cs1 cs2 : flushed (cs1 ++ cs2) = flushed cs1 ++ flushed cs2.
Proof. apply omap_app. Qed.

Lemma sent_app cs1 cs2 : sent (cs1 ++ cs2) = sent cs1 ++ sent cs2.
Proof. apply omap_app. Qed.

Lemma received_app cs1 cs2 :
  received (cs1 ++ cs2) = received cs1 ++ received cs2.
Proof. apply omap_app. Qed.

(** *** The expiration handed to the script, and the script *)

(** Truncating to whole milliseconds and dividing by the millisecond is
    Go's division, which rounds toward zero. *)
Lemma Truncate_quot (d : Z) :
  Z.quot (Truncate d Millisecond) Millisecond = Z.quot d Millisecond.
Proof.
  unfold Truncate, Millisecond. cbn [Z.leb Z.compare].
  symmetry. apply Z.quot_unique_exact; [lia|].
  pose proof (Z.quot_rem' d 1000000). lia.
Qed.

(** C8. The last argument of the EVALSHA command of an item is [-1] when
    the item's [Expiration] is zero and else the [Expiration] in whole
    milliseconds, rounded toward zero.  The script, when the value read
    equals [ARGV[1]], makes one more call: SET with PX and its third
    argument when that is at least zero, SET without expiry when it is
    negative; when the value read differs, it makes no further call and
    returns the error reply "cas conflict". *)
Theorem cas_expire_and_script
    (h : Heap) (item : Item) (cas : slice)
    (Server : Type) (redis_call : Command -> Server -> LuaValue * Server)
    (key : string) (a1 a2 : list byte) (exp : Z) (sv : Server) :
  (last (cmd_args (cas_command casSha h item cas))
     = Some (ArgInt64 (cas_expire item))
   /\ (Expiration item = 0 -> cas_expire item = -1)
   /\ (Expiration item <> 0 ->
       cas_expire item = Z.quot (Expiration item) Millisecond))
  /\ let g := redis_call (get_call key) sv in
     let out := casScript Server redis_call key a1 a2 exp sv in
     (g.1 = LuaString a1 -> 0 <= exp ->
        out = redis_call (set_px_call key a2 exp) g.2)
     /\ (g.1 = LuaString a1 -> exp < 0 ->
        out = redis_call (set_call key a2) g.2)
     /\ (g.1 <> LuaString a1 -> out = (LuaError "cas conflict", g.2)).
Proof.
  split; [split; [reflexivity|split]|].
  - intros H0. unfold cas_expire. now rewrite H0.
  - intros Hne. unfold cas_expire. rewrite Truncate_quot.
    destruct (Z.eqb_spec (Expiration item) 0); [contradiction|reflexivity].
  - cbn zeta. unfold casScript. rewrite bind_run.
    destruct (redis_call (get_call key) sv) as [cur sv1]. cbn [fst snd].
    split; [|split].
    + intros -> Hexp. cbn [lua_eq_string].
      rewrite bool_decide_eq_true_2 by reflexivity.
      destruct (Z.geb_spec exp 0); [reflexivity|lia].
    + intros -> Hexp. cbn [lua_eq_string].
      rewrite bool_decide_eq_true_2 by reflexivity.
      destruct (Z.geb_spec exp 0); [lia|reflexivity].
    + intros Hne. destruct cur as [|b|st|msg]; try reflexivity.
      cbn [lua_eq_string]. rewrite bool_decide_eq_false_2; [reflexivity|].
      congruence.
Qed.

End BackendFacts.
End RedisFacts.

(** ** The Redis backend: [GetMulti] *)

Module GetFacts.
Import Wire Mem St Redis WireFacts MemFacts StFacts.
Local Open Scope st_scope.

Lemma whole_extend (h h' : Heap) s bs :
  h `prefix_of` h' -> whole h s bs -> whole h' s bs.
Proof.
  intros [k ->] (Ha & Ho & Hl). repeat split; try assumption.
  now apply lookup_app_l_Some.
Qed.

Lemma whole_bytes (h : Heap) s bs : whole h s bs -> slice_bytes h s = bs.
Proof.
  intros (Ha & Ho & Hl). unfold slice_bytes, array_of.
  rewrite Ha, Ho, Hl. cbn. apply firstn_all.
Qed.

Lemma whole_lt (h : Heap) s bs : whole h s bs -> (s_arr s < length h)%nat.
Proof. intros (Ha & _). eapply lookup_lt_Some; eauto. Qed.

Lemma whole_alloc (h : Heap) bs : whole (h ++ [bs]) (alloc h bs).2 bs.
Proof.
  unfold whole, alloc. cbn [snd s_arr s_off s_len].
  repeat split. rewrite lookup_app_r by lia.
  now replace (length h - length h)%nat with 0%nat by lia.
Qed.

Lemma alloc_replies_Some (h : Heap) bs rest :
  alloc_replies h (Some bs :: rest)
  = ((alloc_replies (h ++ [bs]) rest).1,
     Some (alloc h bs).2 :: (alloc_replies (h ++ [bs]) rest).2).
Proof.
  cbn [alloc_replies]. unfold alloc.
  now destruct (alloc_replies (h ++ [bs]) rest).
Qed.

Lemma alloc_replies_None (h : Heap) rest :
  alloc_replies h (None :: rest)
  = ((alloc_replies h rest).1, None :: (alloc_replies h rest).2).
Proof. cbn [alloc_replies]. now destruct (alloc_replies h rest). Qed.

(** redigo's parsing of the reply: the heap grows, and each element is
    held by a slice of its own. *)
Lemma alloc_replies_cached rs :
  forall (h : Heap),
    h `prefix_of` (alloc_replies h rs).1
    /\ Forall2 (cached (alloc_replies h rs).1) rs (alloc_replies h rs).2.
Proof.
  induction rs as [|[bs|] rest IH]; intros h.
  - split; [reflexivity|constructor].
  - rewrite alloc_replies_Some. cbn [fst snd].
    destruct (IH (h ++ [bs])) as [Hp HF].
    split.
    + etransitivity; [|exact Hp]. now apply prefix_app_r.
    + constructor; [|assumption]. cbn [cached].
      eapply whole_extend; [exact Hp|]. apply (whole_alloc h bs).
  - rewrite alloc_replies_None. cbn [fst snd].
    destruct (IH h) as [Hp HF].
    split; [assumption|]. constructor; [exact I|assumption].
Qed.

(** One turn of the decoding loop on a reply element that is there. *)
Lemma get_slot_some (h1 : Heap) (g : GetState) i key s bs :
  whole h1 s bs -> h1 `prefix_of` g_heap g ->
  get_slot i key (Some s) g
  = if (length bs <? 4)%nat then get_fail i (ErrShortItem (length bs)) g
    else {| g_heap := g_heap g ++ [bs];
            g_result :=
              <[key := decoded key s
                         (Slice (length (g_heap g)) 0 (length bs)) bs]>
                (g_result g);
            g_me := g_me g; g_hasErr := g_hasErr g |}.
Proof.
  intros Hw Hp. pose proof (whole_extend _ _ _ _ Hp Hw) as Hw'.
  unfold get_slot. rewrite (whole_bytes _ _ _ Hw').
  destruct Hw as (_ & _ & Hl). rewrite Hl.
  destruct (length bs <? 4)%nat eqn:Elen; [reflexivity|].
  apply Nat.ltb_ge in Elen.
  destruct bs as [|b0 [|b1 [|b2 [|b3 rest]]]]; cbn in Elen; try lia.
  cbn [binary_Read_uint32 append_nil]. unfold alloc, decoded, flags_of.
  cbn [binary_Read_uint32 SetCASInfo Key Flags Value Expiration casInfo].
  reflexivity.
Qed.

Section Loop.
Variable h1 : Heap.
Variable rs : list (option (list byte)).
Variable cis : list ByteSlice.
Variable keys : list string.
Hypothesis Hcached : Forall2 (cached h1) rs cis.

Lemma cached_at p : cached h1 (reply_at rs p) (default None (cis !! p)).
Proof.
  unfold reply_at.
  destruct (rs !! p) as [r|] eqn:Er.
  - destruct (Forall2_lookup_l _ _ _ _ _ Hcached Er) as (ci & Eci & Hc).
    now rewrite Eci.
  - destruct (cis !! p) as [ci|] eqn:Eci; [|exact I].
    destruct (Forall2_lookup_r _ _ _ _ _ Hcached Eci) as (r & Er' & _).
    congruence.
Qed.

Ltac split_post :=
  unfold get_post; split; [|split; [|split; [|split; [|split; [|split]]]]].

Lemma get_post_refl i g : get_post rs keys i i g g.
Proof.
  split_post; try done; try (intros; lia).
  split; [now left|]. intros [Hg|(p & Hp & _)]; [assumption|lia].
Qed.

Lemma get_post_trans lo mid hi g g1 g2 :
  (lo <= mid <= hi)%nat ->
  get_post rs keys lo mid g g1 -> get_post rs keys mid hi g1 g2 ->
  get_post rs keys lo hi g g2.
Proof.
  intros Hr (Hh1 & Hl1 & Hf1 & Hm1 & He1 & Hs1 & Hx1)
            (Hh2 & Hl2 & Hf2 & Hm2 & He2 & Hs2 & Hx2).
  split_post.
  - etransitivity; eauto.
  - congruence.
  - intros p Hp. rewrite Hf2, Hf1 by lia. reflexivity.
  - intros p Hp. destruct (decide (p < mid)%nat).
    + rewrite Hf2 by lia. apply Hm1. lia.
    + rewrite Hm2 by lia. rewrite Hf1 by lia. reflexivity.
  - split.
    + intros Hg. apply He2 in Hg as [Hg|(p & Hp & Hs)].
      * apply He1 in Hg as [Hg|(p & Hp & Hs)]; [now left|right].
        exists p. split; [lia|assumption].
      * right. exists p. split; [lia|assumption].
    + intros [Hg|(p & Hp & Hs)]; apply He2.
      * left. apply He1. now left.
      * destruct (decide (p < mid)%nat).
        -- left. apply He1. right. exists p. split; [lia|assumption].
        -- right. exists p. split; [lia|assumption].
  - intros k Hk. auto.
  - intros p key bs Hp Hk Hr' Hlen. destruct (decide (p < mid)%nat).
    + apply Hs2. eapply Hx1; eauto. lia.
    + eapply Hx2; eauto. lia.
Qed.

(** One turn of the loop keeps the invariant and does its slot. *)
Lemma get_slot_post i key g :
  keys !! i = Some key -> (i < length (g_me g))%nat ->
  get_inv h1 rs cis keys g ->
  get_inv h1 rs cis keys (get_slot i key (default None (cis !! i)) g)
  /\ get_post rs keys i (S i) g (get_slot i key (default None (cis !! i)) g).
Proof.
  intros Hkey Hlt [Hpre Hres].
  pose proof (cached_at i) as Hc.
  destruct (reply_at rs i) as [bs|] eqn:Er;
    destruct (default None (cis !! i)) as [s|] eqn:Eci; try contradiction.
  2:{ (* a nil element: the slot is skipped *)
      cbn [get_slot]. split; [now split|].
      split_post; try done.
      - intros p Hp. assert (p = i) by lia. subst p. now rewrite Er.
      - split; [now left|]. intros [Hg|(p & Hp & Hsome)]; [assumption|].
        assert (p = i) by lia. subst p. rewrite Er in Hsome.
        now destruct Hsome.
      - intros p k bs Hp _ Hr' _. assert (p = i) by lia. subst p.
        congruence. }
  cbn [cached] in Hc.
  rewrite (get_slot_some h1 g i key s bs Hc Hpre).
  assert (Ers : rs !! i = Some (Some bs)).
  { unfold reply_at in Er. destruct (rs !! i) as [r|]; cbn in Er; congruence. }
  assert (Ecis : cis !! i = Some (Some s)).
  { destruct (cis !! i) as [r|]; cbn in Eci; congruence. }
  destruct (length bs <? 4)%nat eqn:Elen.
  - (* a short payload: the error goes into the slot *)
    split; [now split|].
    unfold get_fail. split_post; cbn [g_heap g_result g_me g_hasErr];
      try done.
    + apply length_insert.
    + intros p Hp. apply list_lookup_insert_ne. lia.
    + intros p Hp. assert (p = i) by lia. subst p.
      rewrite Er. cbn [slot_err]. rewrite Elen.
      now apply list_lookup_insert_eq.
    + split; [|done]. intros _. right. exists i. split; [lia|].
      rewrite Er. cbn [slot_err]. rewrite Elen. eauto.
    + intros p k bs' Hp _ Hr' Hlen'. assert (p = i) by lia. subst p.
      rewrite Er in Hr'. injection Hr' as <-.
      apply Nat.ltb_lt in Elen. lia.
  - (* a payload of four bytes or more: the item goes into the map *)
    split.
    + split; cbn [g_heap g_result].
      * etransitivity; [exact Hpre|]. now apply prefix_app_r.
      * intros k it Hit.
        destruct (decide (key = k)) as [<-|Hne].
        -- rewrite lookup_insert_eq in Hit. injection Hit as <-.
           exists i, s, bs, (Slice (length (g_heap g)) 0 (length bs)).
           apply Nat.ltb_ge in Elen.
           split; [assumption|]. split; [assumption|].
           split; [assumption|]. split; [assumption|].
           split; [reflexivity|]. split.
           ++ cbn [s_arr]. destruct Hpre as [k' ->]. rewrite length_app. lia.
           ++ apply (whole_alloc (g_heap g) bs).
        -- rewrite lookup_insert_ne in Hit by assumption.
           destruct (Hres k it Hit)
             as (j & s' & bs' & t & H1 & H2 & H3 & H4 & H5 & H6 & H7).
           exists j, s', bs', t.
           split; [assumption|]. split; [assumption|].
           split; [assumption|]. split; [assumption|].
           split; [assumption|]. split; [assumption|].
           apply (whole_extend (g_heap g)); [now apply prefix_app_r|].
           assumption.
    + split_post; cbn [g_heap g_result g_me g_hasErr]; try done.
      * now apply prefix_app_r.
      * intros p Hp. assert (p = i) by lia. subst p.
        rewrite Er. cbn [slot_err]. now rewrite Elen.
      * split; [now left|].
        intros [Hg|(p & Hp & Hsome)]; [assumption|].
        assert (p = i) by lia. subst p. rewrite Er in Hsome.
        cbn [slot_err] in Hsome. rewrite Elen in Hsome. now destruct Hsome.
      * intros k Hk. destruct (decide (key = k)) as [<-|Hne].
        -- rewrite lookup_insert_eq. eauto.
        -- now rewrite lookup_insert_ne.
      * intros p k bs' Hp Hk _ _. assert (p = i) by lia. subst p.
        rewrite Hkey in Hk. injection Hk as <-.
        rewrite lookup_insert_eq. eauto.
Qed.

(** The loop from slot [i] on, over the keys [ks] left. *)
Lemma get_loop_post ks :
  forall i g,
    (forall j key, ks !! j = Some key -> keys !! (i + j)%nat = Some key) ->
    (i + length ks <= length (g_me g))%nat ->
    get_inv h1 rs cis keys g ->
    get_inv h1 rs cis keys (get_loop cis ks i g)
    /\ get_post rs keys i (i + length ks) g (get_loop cis ks i g).
Proof.
  induction ks as [|key rest IH]; intros i g Hks Hlen Hinv.
  - cbn [get_loop length]. rewrite Nat.add_0_r.
    split; [assumption|apply get_post_refl].
  - cbn [get_loop]. cbn [length] in Hlen |- *.
    assert (Hkey : keys !! i = Some key).
    { rewrite <- (Nat.add_0_r i). now apply Hks. }
    destruct (get_slot_post i key g Hkey ltac:(lia) Hinv) as [Hinv1 Hpost1].
    set (g1 := get_slot i key (default None (cis !! i)) g) in *.
    assert (Hl1 : length (g_me g1) = length (g_me g)) by apply Hpost1.
    destruct (IH (S i) g1) as [Hinv2 Hpost2].
    + intros j k Hj. replace (S i + j)%nat with (i + S j)%nat by lia.
      now apply Hks.
    + lia.
    + assumption.
    + split; [assumption|].
      replace (i + S (length rest))%nat with (S i + length rest)%nat by lia.
      eapply get_post_trans; [|exact Hpost1|exact Hpost2]. lia.
Qed.

End Loop.

Section GetMultiFacts.
Context {C : Type} `{Conn C}.

(** The body of [GetMulti] on a connection that answers, unfolded down to
    the loop. *)
Lemma get_body_run (h : Heap) (keys : list string) (s : ConnState C)
    (c' : C) (r : Reply * option redis_err)
    (rs : list (option (list byte))) :
  conn_Do (mget_command keys) (conn s) = (r, c') ->
  redis_ByteSlices r = (rs, None) ->
  length rs = length keys ->
  let h1 := (alloc_replies h rs).1 in
  let cis := (alloc_replies h rs).2 in
  let g := get_loop cis keys 0
             {| g_heap := h1; g_result := ∅;
                g_me := replicate (length keys) None; g_hasErr := false |} in
  (get_body h keys s).1
  = (Some (g_result g),
     if g_hasErr g then Some (MultiError (g_me g)) else None,
     g_heap g).
Proof.
  intros HDo HBS Hlen. cbn zeta.
  unfold get_body. rewrite bind_run.
  unfold Do at 1 2. rewrite HDo. cbn [fst snd]. rewrite HBS.
  pose proof (alloc_replies_cached rs h) as [_ HF].
  apply Forall2_length in HF.
  destruct (alloc_replies h rs) as [h1 cis]. cbn [fst snd] in *.
  assert (Heq : (length cis =? length keys)%nat = true).
  { apply Nat.eqb_eq. congruence. }
  rewrite Heq. cbn [negb].
  match goal with |- context [g_hasErr ?g] => destruct (g_hasErr g) end;
    reflexivity.
Qed.

Lemma GetMulti_unfold (b : backend) (c c' : C) (h : Heap)
    (keys : list string) (r : Reply * option redis_err)
    (rs : list (option (list byte))) :
  keys <> [] -> store b = inr c ->
  conn_Do (mget_command keys) c = (r, c') ->
  redis_ByteSlices r = (rs, None) ->
  length rs = length keys ->
  let h1 := (alloc_replies h rs).1 in
  let cis := (alloc_replies h rs).2 in
  let g := get_loop cis keys 0
             {| g_heap := h1; g_result := ∅;
                g_me := replicate (length keys) None; g_hasErr := false |} in
  (GetMulti b h keys).1
  = (Some (g_result g),
     if g_hasErr g then Some (MultiError (g_me g)) else None,
     g_heap g).
Proof.
  intros Hne Hb HDo HBS Hlen. cbn zeta.
  unfold GetMulti. destruct keys as [|k ks]; [contradiction|].
  cbn [length Nat.eqb]. unfold with_conn. rewrite Hb.
  rewrite bind_run. cbv beta. rewrite bind_run. unfold ret. cbn [fst].
  apply (get_body_run h (k :: ks) {| conn := c; calls := [] |} c' r rs);
    assumption.
Qed.

(** [GetMulti] on a connection that answers with as many elements as
    there are keys: its results are the locals of the loop at its end,
    which satisfy the invariant and are what the turns at all the slots
    make of the initial locals. *)
Lemma GetMulti_spec (b : backend) (c c' : C) (h : Heap)
    (keys : list string) (r : Reply * option redis_err)
    (rs : list (option (list byte))) :
  keys <> [] -> store b = inr c ->
  conn_Do (mget_command keys) c = (r, c') ->
  redis_ByteSlices r = (rs, None) ->
  length rs = length keys ->
  exists (h1 : Heap) (cis : list ByteSlice) (g : GetState),
    (GetMulti b h keys).1
    = (Some (g_result g),
       if g_hasErr g then Some (MultiError (g_me g)) else None,
       g_heap g)
    /\ Forall2 (cached h1) rs cis
    /\ get_inv h1 rs cis keys g
    /\ get_post rs keys 0 (length keys)
         {| g_heap := h1; g_result := ∅;
            g_me := replicate (length keys) None; g_hasErr := false |} g.
Proof.
  intros Hne Hb HDo HBS Hlen.
  pose proof (GetMulti_unfold b c c' h keys r rs Hne Hb HDo HBS Hlen) as Hun.
  cbn zeta in Hun.
  pose proof (alloc_replies_cached rs h) as [_ HF].
  set (h1 := (alloc_replies h rs).1) in *.
  set (cis := (alloc_replies h rs).2) in *.
  set (g0 := {| g_heap := h1; g_result := ∅;
                g_me := replicate (length keys) None; g_hasErr := false |}) in *.
  destruct (get_loop_post h1 rs cis keys HF keys 0 g0) as [Hinv Hpost].
  - intros j key Hj. exact Hj.
  - cbn [g_me g0]. rewrite length_replicate. lia.
  - split; [reflexivity|]. intros k it Hit. cbn [g_result g0] in Hit.
    rewrite lookup_empty in Hit. discriminate.
  - exists h1, cis, (get_loop cis keys 0 g0). auto.
Qed.

(** C6. [GetMulti] on keys whose stored payloads are those of [srv]: a
    payload of fewer than four bytes puts the error of line 283 in the
    slot of its key and nowhere else, and the key is not in the map; a key
    that is not stored has no error in its slot and is not in the map;
    every key with a payload of four bytes or more has no error in its
    slot and is in the map with its flags and value decoded, whatever the
    other keys hold.  The call returns the [MultiError] when some payload
    is short, and no error otherwise. *)
Theorem GetMulti_isolates_short_payloads
    (b : backend) (c c' : C) (h : Heap) (keys : list string)
    (srv : gmap string (list byte)) (r : Reply * option redis_err) :
  keys <> [] -> store b = inr c ->
  conn_Do (mget_command keys) c = (r, c') ->
  redis_ByteSlices r = ((fun k => srv !! k) <$> keys, None) ->
  exists (result : gmap string Item) (err : option error) (hf : Heap)
         (me : MultiErr),
    (GetMulti b h keys).1 = (Some result, err, hf)
    /\ length me = length keys
    /\ (err = None \/ err = Some (MultiError me))
    /\ (err = None <->
        forall key bs, key ∈ keys -> srv !! key = Some bs ->
                       (4 <= length bs)%nat)
    /\ forall i key, keys !! i = Some key ->
         match srv !! key with
         | None => me !! i = Some None /\ result !! key = None
         | Some bs =>
             if (length bs <? 4)%nat
             then me !! i = Some (Some (ErrShortItem (length bs)))
                  /\ result !! key = None
             else me !! i = Some None
                  /\ exists it, result !! key = Some it
                       /\ Key it = key /\ Flags it = flags_of bs
                       /\ bytes_of hf (Value it) = drop 4 bs
         end.
Proof.
  intros Hne Hb HDo HBS.
  set (rs := (fun k => srv !! k) <$> keys) in *.
  assert (Hlen : length rs = length keys) by apply length_fmap.
  destruct (GetMulti_spec b c c' h keys r rs Hne Hb HDo HBS Hlen)
    as (h1 & cis & g & Hout & HF & [Hpre Hres]
        & (Hh & Hl & Hf & Hm & He & Hs & Hx)).
  cbn [g_heap g_result g_me g_hasErr] in *.
  assert (Hat : forall i key, keys !! i = Some key ->
                              reply_at rs i = srv !! key).
  { intros i key Hi. unfold reply_at, rs.
    now rewrite list_lookup_fmap, Hi. }
  assert (Hnone : forall key,
             (forall bs, srv !! key = Some bs -> (length bs < 4)%nat) ->
             g_result g !! key = None).
  { intros key Hshort. destruct (g_result g !! key) as [it|] eqn:Eit; [|done].
    destruct (Hres key it Eit) as (j & s & bs & t & Hj & Hrs & _ & H4 & _).
    unfold rs in Hrs. rewrite list_lookup_fmap, Hj in Hrs.
    injection Hrs as Hrs. apply Hshort in Hrs. lia. }
  exists (g_result g), (if g_hasErr g then Some (MultiError (g_me g)) else None),
    (g_heap g), (g_me g).
  split; [exact Hout|]. split; [now rewrite Hl, length_replicate|].
  split; [destruct (g_hasErr g); auto|]. split.
  - split.
    + intros Herr key bs Hin Hsrv.
      destruct (Nat.lt_ge_cases (length bs) 4) as [Hlt|]; [|assumption].
      exfalso. apply list_elem_of_lookup in Hin as [i Hi].
      assert (Ht : g_hasErr g = true).
      { apply He. right. exists i. split.
        - split; [lia|]. eapply lookup_lt_Some; eauto.
        - rewrite (Hat i key Hi), Hsrv. cbn [slot_err].
          apply Nat.ltb_lt in Hlt. rewrite Hlt. eauto. }
      rewrite Ht in Herr. discriminate.
    + intros Hall. destruct (g_hasErr g) eqn:Eh; [|reflexivity].
      exfalso. destruct (proj1 He eq_refl) as [Habs|(p & Hp & Hsome)];
        [discriminate|].
      destruct (lookup_lt_is_Some_2 keys p) as [key Hkey]; [lia|].
      rewrite (Hat p key Hkey) in Hsome.
      destruct (srv !! key) as [bs|] eqn:Esrv; cbn [slot_err] in Hsome.
      * assert (4 <= length bs)%nat as Hge.
        { eapply Hall; eauto. eapply list_elem_of_lookup_2; eauto. }
        apply Nat.ltb_ge in Hge. rewrite Hge in Hsome. now destruct Hsome.
      * now destruct Hsome.
  - intros i key Hi.
    assert (Hlt : (i < length keys)%nat) by (eapply lookup_lt_Some; eauto).
    pose proof (Hm i ltac:(lia)) as Hmi. rewrite (Hat i key Hi) in Hmi.
    rewrite lookup_replicate_2 in Hmi by assumption.
    destruct (srv !! key) as [bs|] eqn:Esrv; cbn [slot_err] in Hmi.
    + destruct (length bs <? 4)%nat eqn:Elen.
      * split; [assumption|]. apply Hnone. intros bs' Hbs'.
        rewrite Esrv in Hbs'. injection Hbs' as <-. now apply Nat.ltb_lt.
      * split; [assumption|]. apply Nat.ltb_ge in Elen.
        destruct (Hx i key bs ltac:(lia) Hi) as [it Hit];
          [now rewrite (Hat i key Hi)|assumption|].
        exists it. split; [assumption|].
        destruct (Hres key it Hit)
          as (j & s & bs' & t & Hj & Hrs & Hcis & H4 & -> & Ht & Hw).
        unfold rs in Hrs. rewrite list_lookup_fmap, Hj in Hrs.
        injection Hrs as Hrs. rewrite Esrv in Hrs. injection Hrs as <-.
        split; [reflexivity|]. split; [reflexivity|].
        cbn [decoded Value bytes_of from_option].
        destruct (Forall2_lookup_r _ _ _ _ _ HF Hcis) as (r0 & Hr0 & Hc0).
        assert (Hr0' : rs !! j = Some (Some bs)).
        { unfold rs. rewrite list_lookup_fmap, Hj. cbn. now rewrite Esrv. }
        rewrite Hr0' in Hr0. injection Hr0 as <-. cbn [cached] in Hc0.
        assert (Hwf : whole (g_heap g) s bs).
        { eapply whole_extend; [exact Hpre|exact Hc0]. }
        rewrite slice_bytes_from by (destruct Hwf as (_ & _ & ->); lia).
        now rewrite (whole_bytes _ _ _ Hwf).
    + split; [assumption|]. apply Hnone. intros bs' Hbs'. congruence.
Qed.

(** C10. Every item [GetMulti] returns has as CAS token a [[]byte] of
    its own whose bytes are the whole payload the server sent for the
    item's key: the four bytes of the item's flags followed by the bytes
    of its value.  The token lies in another backing array than the value
    of this or any returned item, so after any writes through those values
    the token still reads as the payload, and the command
    [CompareAndSwapMulti] then queues for the item carries the payload as
    the value to compare with. *)
Theorem GetMulti_token_is_private_copy
    (b : backend) (c c' : C) (h : Heap) (keys : list string)
    (r : Reply * option redis_err) (rs : list (option (list byte))) :
  keys <> [] -> store b = inr c ->
  conn_Do (mget_command keys) c = (r, c') ->
  redis_ByteSlices r = (rs, None) ->
  length rs = length keys ->
  exists (result : gmap string Item) (err : option error) (hf : Heap),
    (GetMulti b h keys).1 = (Some result, err, hf)
    /\ forall key it, result !! key = Some it ->
         exists (t v : slice) (i : nat) (bs : list byte),
           GetCASInfo it = CASInfo_bytes (Some t)
           /\ Value it = Some v
           /\ keys !! i = Some key /\ rs !! i = Some (Some bs)
           /\ slice_bytes hf t = bs
           /\ bs = PutUint32 (Flags it) ++ slice_bytes hf v
           /\ s_arr t <> s_arr v
           /\ forall ws, Forall (through_value result) ws ->
                slice_bytes (writes hf ws) t = bs
                /\ forall casSha,
                     exists new exp,
                       token_command casSha (writes hf ws) it
                       = Some {| cmd_name := "EVALSHA";
                                 cmd_args := [ArgString casSha; ArgString "1";
                                              ArgString key; ArgBytes bs;
                                              ArgBytes new; ArgInt64 exp] |}.
Proof.
  intros Hne Hb HDo HBS Hlen.
  destruct (GetMulti_spec b c c' h keys r rs Hne Hb HDo HBS Hlen)
    as (h1 & cis & g & Hout & HF & [Hpre Hres] & _).
  exists (g_result g), (if g_hasErr g then Some (MultiError (g_me g)) else None),
    (g_heap g).
  split; [exact Hout|]. intros key it Hit.
  (* a value slice of the map lies in an array older than the loop *)
  assert (Hold : forall w, through_value (g_result g) w ->
                           (w.1.1 < length h1)%nat).
  { intros w (k' & it' & v' & Hit' & Hv' & ->).
    destruct (Hres k' it' Hit')
      as (j & s & bs & t & _ & Hrs & Hcis & _ & -> & _).
    cbn [decoded Value] in Hv'. injection Hv' as <-. cbn [slice_from s_arr].
    destruct (Forall2_lookup_r _ _ _ _ _ HF Hcis) as (r0 & Hr0 & Hc0).
    rewrite Hrs in Hr0. injection Hr0 as <-. cbn [cached] in Hc0.
    eapply whole_lt; eauto. }
  destruct (Hres key it Hit)
    as (j & s & bs & t & Hj & Hrs & Hcis & H4 & -> & Ht & Hw).
  destruct (Forall2_lookup_r _ _ _ _ _ HF Hcis) as (r0 & Hr0 & Hc0).
  rewrite Hrs in Hr0. injection Hr0 as <-. cbn [cached] in Hc0.
  assert (Hwf : whole (g_heap g) s bs).
  { eapply whole_extend; [exact Hpre|exact Hc0]. }
  assert (Hval : slice_bytes (g_heap g) (slice_from s 4) = drop 4 bs).
  { rewrite slice_bytes_from by (destruct Hwf as (_ & _ & ->); lia).
    now rewrite (whole_bytes _ _ _ Hwf). }
  assert (Htok : forall ws, Forall (through_value (g_result g)) ws ->
                            slice_bytes (writes (g_heap g) ws) t = bs).
  { intros ws Hws. rewrite slice_bytes_writes; [now apply whole_bytes|].
    eapply Forall_impl; [exact Hws|]. intros w Hthrough.
    apply Hold in Hthrough. lia. }
  exists t, (slice_from s 4), j, bs.
  split; [reflexivity|]. split; [reflexivity|].
  split; [assumption|]. split; [assumption|].
  split; [now apply whole_bytes|]. split.
  { rewrite Hval. destruct (binary_Read_uint32_inv bs H4) as (fl & Hrd & Hbs).
    cbn [decoded Flags]. unfold flags_of. now rewrite Hrd. }
  split.
  { cbn [slice_from s_arr]. apply whole_lt in Hc0. lia. }
  intros ws Hws. split; [now apply Htok|].
  intros casSha. unfold token_command, cas_command.
  cbn [GetCASInfo decoded casInfo Key]. rewrite (Htok ws Hws). eauto.
Qed.

Lemma payload_eq (h : Heap) (item : Item) :
  payload h item = PutUint32 (Flags item) ++ bytes_of h (Value item).
Proof. reflexivity. Qed.

(** C3. The payload [set] sends for an item is the four little-endian
    bytes of its flags followed by its value; and [GetMulti], given that
    payload back by the server, returns for the key an item with the same
    flags and the same value bytes, whatever the 32-bit flags and the
    value are. *)
Theorem payload_round_trip
    (b : backend) (c c' : C) (h h' : Heap) (item : Item) (nx : bool)
    (key : string) (r : Reply * option redis_err) :
  is_uint32 (Flags item) ->
  store b = inr c ->
  conn_Do (mget_command [key]) c = (r, c') ->
  redis_ByteSlices r = ([Some (payload h item)], None) ->
  take 2 (cmd_args (set_command h nx item))
  = [ArgString (Key item);
     ArgBytes (PutUint32 (Flags item) ++ bytes_of h (Value item))]
  /\ exists (it : Item) (hf : Heap),
       (GetMulti b h' [key]).1 = (Some {[key := it]}, None, hf)
       /\ Flags it = Flags item
       /\ bytes_of hf (Value it) = bytes_of h (Value item).
Proof.
  intros Hfl Hb HDo HBS. split.
  { unfold set_command. cbn [cmd_args].
    destruct nx, (Expiration item =? 0); reflexivity. }
  set (p := payload h item) in *.
  assert (Hp : p = PutUint32 (Flags item) ++ bytes_of h (Value item))
    by reflexivity.
  assert (Hlen : (length p <? 4)%nat = false).
  { apply Nat.ltb_ge. rewrite Hp, length_app. cbn. lia. }
  pose proof (GetMulti_unfold b c c' h' [key] r [Some p]
                ltac:(discriminate) Hb HDo HBS eq_refl) as Hun.
  cbn zeta in Hun. rewrite alloc_replies_Some in Hun.
  cbn [alloc_replies fst snd get_loop length] in Hun.
  change (default None ([Some (alloc h' p).2] !! 0%nat))
    with (Some (alloc h' p).2) in Hun.
  rewrite (get_slot_some (h' ++ [p]) _ 0 key (alloc h' p).2 p) in Hun;
    [|apply whole_alloc|reflexivity].
  rewrite Hlen in Hun. cbn [g_heap g_result g_me g_hasErr] in Hun.
  rewrite insert_empty in Hun.
  eexists _, _. split; [exact Hun|].
  cbn [decoded Flags Value bytes_of from_option]. split.
  - unfold flags_of. rewrite Hp.
    change (PutUint32 (Flags item)) with (binary_Write_uint32 [] (Flags item)).
    now rewrite binary_Read_Write_uint32.
  - rewrite slice_bytes_from by (cbn; apply Nat.ltb_ge in Hlen; lia).
    assert (Hwf : whole ((h' ++ [p]) ++ [p]) (alloc h' p).2 p).
    { eapply whole_extend; [|apply whole_alloc]. now apply prefix_app_r. }
    rewrite (whole_bytes _ _ _ Hwf), Hp. reflexivity.
Qed.

End GetMultiFacts.
End GetFacts.

(** ** The theorems at concrete inputs *)

Module Witnesses.
Import Wire Mem St Inputs.

Section CoordinatorWitnesses.
Import Nds ScriptedWorld NdsFacts.

Lemma complete_a_b :
  forall key : key, key ∈ [key_a; key_b] -> Incomplete key = false.
Proof.
  intros key Hk.
  repeat (apply elem_of_cons in Hk as [->|Hk]; [reflexivity|]).
  inversion Hk.
Defined.

Lemma deleteMulti_locks_before_delete_witness :
  let c := @FromNewContext world_Types tt in
  let fa := 1103527590 in
  let fb := 2524885223 in
  let items := [lock_item key_a fa; lock_item key_b fb] in
  (forall key : key, key ∈ [key_a; key_b] -> Incomplete key = false)
  /\ deleteMulti tt [key_a; key_b] (start world_lock_fails)
     = (Some "memcache: server error"%string,
        {| world := {| seed := fb;
                       set_err := Some "memcache: server error"%string;
                       del_err := None |};
           calls := [CallRand fa; CallRand fb;
                     CallSetMulti c items
                       (Some "memcache: server error"%string)] |})
  /\ deleteMulti tt [key_a; key_b] (start world_ok)
     = (None,
        {| world := {| seed := fb; set_err := None; del_err := None |};
           calls := [CallRand fa; CallRand fb;
                     CallSetMulti c items None;
                     CallDeleteMulti c [key_a; key_b] None] |}).
Proof.
  intros c fa fb items. split; [exact complete_a_b|]. split.
  - exact (proj2 (deleteMulti_locks_before_delete tt [key_a; key_b]
                    (start world_lock_fails) complete_a_b)).
  - exact (proj2 (deleteMulti_locks_before_delete tt [key_a; key_b]
                    (start world_ok) complete_a_b)).
Defined.

Lemma deleteMulti_incomplete_aborts_witness :
  (exists key : key, key ∈ [key_a; key_new; key_b] /\ Incomplete key = true)
  /\ exists (vs : list Z) (s' : State),
       deleteMulti tt [key_a; key_new; key_b] (start world_ok)
       = (Some ErrInvalidKey, s')
       /\ calls s' = calls (start world_ok) ++ (CallRand <$> vs)
       /\ (length vs < length [key_a; key_new; key_b])%nat.
Proof.
  assert (Hinc : exists key : key,
             key ∈ [key_a; key_new; key_b] /\ Incomplete key = true).
  { exists key_new. split; [|reflexivity].
    apply list_elem_of_further, list_elem_of_here. }
  split; [exact Hinc|].
  exact (deleteMulti_incomplete_aborts tt [key_a; key_new; key_b]
           (start world_ok) Hinc).
Defined.

Lemma rand_is_uint32 : forall w : W, is_uint32 (rand_Uint32 w).1.
Proof.
  intros w. cbn. unfold is_uint32, next_seed.
  apply Z.mod_pos_bound. reflexivity.
Defined.

Lemma deleteMulti_lock_items_witness :
  (forall w : W, is_uint32 (rand_Uint32 w).1)
  /\ (forall key : key, key ∈ [key_a; key_b] -> Incomplete key = false)
  /\ exists (items : list memcache_Item) (e1 : option error)
            (tail : list Call),
       calls (deleteMulti tt [key_a; key_b] (start world_ok)).2
       = calls (start world_ok)
         ++ ((fun it => CallRand (Flags it)) <$> items)
         ++ CallSetMulti (FromNewContext tt) items e1 :: tail
       /\ length items = length [key_a; key_b]
       /\ items !! 0%nat
          = Some {| Key := "NDS0:a"; Flags := 1103527590;
                    Value := None; Expiration := 32000000000 |}
       /\ items !! 1%nat
          = Some {| Key := "NDS0:b"; Flags := 2524885223;
                    Value := None; Expiration := 32000000000 |}.
Proof.
  split; [exact rand_is_uint32|]. split; [exact complete_a_b|].
  destruct (@deleteMulti_lock_items world_Types world_Env tt
              [key_a; key_b] (start world_ok) rand_is_uint32 complete_a_b)
    as (items & e1 & tail & Hcalls & Hlen & Hitems).
  exists items, e1, tail. split; [exact Hcalls|]. split; [exact Hlen|].
  split.
  - exact (proj1 (Hitems 0%nat key_a eq_refl)).
  - exact (proj1 (Hitems 1%nat key_b eq_refl)).
Defined.

End CoordinatorWitnesses.

Section BackendWitnesses.
Import Redis ScriptedConn RedisFacts GetFacts.

Lemma cas_expire_and_script_witness :
  cas_expire item_cas = 1
  /\ casScript _ MiniServer.redis_call "a" payload_a [x01] 1
       {["a" := (payload_a, None)]}
     = MiniServer.redis_call (set_px_call "a" [x01] 1)
         {["a" := (payload_a, None)]}
  /\ casScript _ MiniServer.redis_call "a" payload_a [x01] (-1)
       {["a" := (payload_a, None)]}
     = MiniServer.redis_call (set_call "a" [x01])
         {["a" := (payload_a, None)]}
  /\ casScript _ MiniServer.redis_call "a" [x02] [x01] 1
       {["a" := (payload_a, None)]}
     = (LuaError "cas conflict", {["a" := (payload_a, None)]}).
Proof.
  pose (sv := ({["a" := (payload_a, None)]} : MiniServer.Server)).
  pose proof (cas_expire_and_script "sha" heap_cas item_cas (Slice 1 0 3)
                _ MiniServer.redis_call "a" payload_a [x01] 1 sv)
    as [(_ & _ & Hexp) (Hpx & _ & _)].
  pose proof (cas_expire_and_script "sha" heap_cas item_cas (Slice 1 0 3)
                _ MiniServer.redis_call "a" payload_a [x01] (-1) sv)
    as [_ (_ & Hset & _)].
  pose proof (cas_expire_and_script "sha" heap_cas item_cas (Slice 1 0 3)
                _ MiniServer.redis_call "a" [x02] [x01] 1 sv)
    as [_ (_ & _ & Hconf)].
  split; [rewrite Hexp; [reflexivity|discriminate]|].
  split; [apply Hpx; [reflexivity|lia]|].
  split; [apply Hset; [reflexivity|lia]|].
  apply Hconf. discriminate.
Defined.

Lemma payload_round_trip_witness :
  let c := answering [Some (payload heap_x item_a)] in
  let b := {| store := inr c |} in
  is_uint32 (Flags item_a)
  /\ store b = inr c
  /\ conn_Do (mget_command ["a"]) c = (t_do c, c)
  /\ redis_ByteSlices (t_do c) = ([Some (payload heap_x item_a)], None)
  /\ take 2 (cmd_args (set_command heap_x false item_a))
     = [ArgString (Key item_a);
        ArgBytes (PutUint32 (Flags item_a) ++ bytes_of heap_x (Value item_a))]
  /\ exists (it : Item) (hf : Heap),
       (GetMulti b [] ["a"]).1 = (Some {["a" := it]}, None, hf)
       /\ Flags it = Flags item_a
       /\ bytes_of hf (Value it) = bytes_of heap_x (Value item_a).
Proof.
  intros c b.
  assert (Hfl : is_uint32 (Flags item_a))
    by (split; [discriminate|reflexivity]).
  split; [exact Hfl|]. split; [reflexivity|]. split; [reflexivity|].
  split; [reflexivity|].
  exact (payload_round_trip b c c heap_x [] item_a false "a" (t_do c)
           Hfl eq_refl eq_refl eq_refl).
Defined.

Lemma GetMulti_isolates_short_payloads_witness :
  let c := answering ((fun k => srv_ac !! k) <$> keys_abc) in
  let b := {| store := inr c |} in
  keys_abc <> []
  /\ store b = inr c
  /\ conn_Do (mget_command keys_abc) c = (t_do c, c)
  /\ redis_ByteSlices (t_do c) = ((fun k => srv_ac !! k) <$> keys_abc, None)
  /\ exists (result : gmap string Item) (err : option error) (hf : Heap)
            (me : MultiErr),
       (GetMulti b [] keys_abc).1 = (Some result, err, hf)
       /\ length me = length keys_abc
       /\ (err = None \/ err = Some (MultiError me))
       /\ (err = None <->
           forall key bs, key ∈ keys_abc -> srv_ac !! key = Some bs ->
                          (4 <= length bs)%nat)
       /\ forall i key, keys_abc !! i = Some key ->
            match srv_ac !! key with
            | None => me !! i = Some None /\ result !! key = None
            | Some bs =>
                if (length bs <? 4)%nat
                then me !! i = Some (Some (ErrShortItem (length bs)))
                     /\ result !! key = None
                else me !! i = Some None
                     /\ exists it, result !! key = Some it
                          /\ Key it = key /\ Flags it = flags_of bs
                          /\ bytes_of hf (Value it) = drop 4 bs
            end.
Proof.
  intros c b.
  split; [discriminate|]. split; [reflexivity|]. split; [reflexivity|].
  split; [reflexivity|].
  exact (GetMulti_isolates_short_payloads b c c [] keys_abc srv_ac (t_do c)
           ltac:(discriminate) eq_refl eq_refl eq_refl).
Defined.

Lemma GetMulti_token_is_private_copy_witness :
  let c := answering [Some payload_a] in
  let b := {| store := inr c |} in
  ["a"] <> []
  /\ store b = inr c
  /\ conn_Do (mget_command ["a"]) c = (t_do c, c)
  /\ redis_ByteSlices (t_do c) = ([Some payload_a], None)
  /\ length [Some payload_a] = length ["a"]
  /\ exists (result : gmap string Item) (err : option error) (hf : Heap),
       (GetMulti b [] ["a"]).1 = (Some result, err, hf)
       /\ forall key it, result !! key = Some it ->
            exists (t v : slice) (i : nat) (bs : list byte),
              GetCASInfo it = CASInfo_bytes (Some t)
              /\ Value it = Some v
              /\ ["a"] !! i = Some key
              /\ [Some payload_a] !! i = Some (Some bs)
              /\ slice_bytes hf t = bs
              /\ bs = PutUint32 (Flags it) ++ slice_bytes hf v
              /\ s_arr t <> s_arr v
              /\ forall ws, Forall (through_value result) ws ->
                   slice_bytes (writes hf ws) t = bs
                   /\ forall casSha,
                        exists new exp,
                          token_command casSha (writes hf ws) it
                          = Some {| cmd_name := "EVALSHA";
                                    cmd_args :=
                                      [ArgString casSha; ArgString "1";
                                       ArgString key; ArgBytes bs;
                                       ArgBytes new; ArgInt64 exp] |}.
Proof.
  intros c b.
  split; [discriminate|]. split; [reflexivity|]. split; [reflexivity|].
  split; [reflexivity|]. split; [reflexivity|].
  exact (GetMulti_token_is_private_copy b c c [] ["a"] (t_do c)
           [Some payload_a] ltac:(discriminate) eq_refl eq_refl eq_refl
           eq_refl).
Defined.

End BackendWitnesses.
End Witnesses.

(** ** The code run on concrete inputs *)

Module Examples.
Import Wire Mem St Inputs.

Section CoordinatorExamples.
Import Nds ScriptedWorld.

(** Two complete keys: two draws, the locks, then the delete. *)
Example deleteMulti_two_keys :
  exists fa fb,
    deleteMulti tt [key_a; key_b] (start world_ok)
    = (None,
       {| world := {| seed := fb; set_err := None; del_err := None |};
          calls := [CallRand fa; CallRand fb;
                    CallSetMulti (FromNewContext tt)
                      [lock_item key_a fa; lock_item key_b fb] None;
                    CallDeleteMulti (FromNewContext tt) [key_a; key_b]
                      None] |}).
Proof. eexists _, _. vm_compute. reflexivity. Qed.

(** Memcache refuses the locks: the datastore is not called. *)
Example deleteMulti_lock_refused :
  exists fa fb w,
    deleteMulti tt [key_a; key_b] (start world_lock_fails)
    = (Some "memcache: server error"%string,
       {| world := w;
          calls := [CallRand fa; CallRand fb;
                    CallSetMulti (FromNewContext tt)
                      [lock_item key_a fa; lock_item key_b fb]
                      (Some "memcache: server error"%string)] |}).
Proof. eexists _, _, _. vm_compute. reflexivity. Qed.

(** An incomplete key in second place: the abort comes after the draw
    made for the first key, and before any call to memcache or the
    datastore. *)
Example deleteMulti_second_key_incomplete :
  deleteMulti tt [key_a; key_new; key_b] (start world_ok)
  = (Some ErrInvalidKey,
     {| world := {| seed := 1103527590; set_err := None; del_err := None |};
        calls := [CallRand 1103527590] |}).
Proof. vm_compute. reflexivity. Qed.

(** A context of another kind: the datastore only. *)
Example DeleteMulti_other_context :
  DeleteMulti (OtherContext tt) [key_a; key_new] (start world_ok)
  = (None,
     {| world := world_ok;
        calls := [CallDeleteMulti (OtherContext tt) [key_a; key_new] None] |}).
Proof. vm_compute. reflexivity. Qed.

End CoordinatorExamples.

Section BackendExamples.
Import Redis ScriptedConn.

Example payload_of_item_a : payload heap_x item_a = payload_a.
Proof. vm_compute. reflexivity. Qed.

(** 1.5 ms expire after 1 ms; half a millisecond becomes PX 0; no
    expiration is -1 for the script and no PX for SET. *)
Example cas_expire_values :
  cas_expire item_cas = 1
  /\ cas_expire {| Key := "a"; Value := None; Flags := 0;
                   Expiration := 500000; casInfo := CASInfo_nil |} = 0
  /\ cas_expire {| Key := "a"; Value := None; Flags := 0;
                   Expiration := -1500000; casInfo := CASInfo_nil |} = -1
  /\ cas_expire item_a = -1.
Proof. vm_compute. auto. Qed.

(** A batch of an item without a token and one whose token is stale:
    with the sender through before the caller's loop starts, and with
    the caller at its first [Receive] before the sender starts. *)
Example CompareAndSwapMulti_conflict :
  let b := {| store := inr (replying [conflict]) |} in
  (CompareAndSwapMulti "sha" (sender_first 2) b heap_cas [item_a; item_cas]).1
  = Some (MultiError [Some ErrNotStored; Some ErrCASConflict])
  /\ (CompareAndSwapMulti "sha" (sender_at_first_receive 2) b
        heap_cas [item_a; item_cas]).1
     = Some (MultiError [Some ErrCASConflict;
                         Some (ConnErr (redis_Error "EOF"))]).
Proof. vm_compute. auto. Qed.

(** The send and the flush fail, the sender being through before the
    caller's loop starts: the flush error is all that comes back. *)
Example AddMulti_broken_pipe :
  (AddMulti (sender_first 1) {| store := inr broken |} heap_x [item_a]).1
  = Some (ConnErr (redis_Error "write: broken pipe")).
Proof. vm_compute. reflexivity. Qed.

(** Deleting a key that is there and one that is not, the sender being
    through before the caller's loop starts. *)
Example DeleteMulti_miss :
  (DeleteMulti (sender_first 2)
     {| store := inr (replying [(RInt 1, None); (RInt 0, None)]) |}
     ["a"; "b"]).1
  = Some (MultiError [None; Some ErrCacheMiss]).
Proof. vm_compute. reflexivity. Qed.

(** Three keys: a payload, nothing, a payload of one byte. *)
Example GetMulti_abc :
  let out := (GetMulti
                {| store := inr (answering ((fun k => srv_ac !! k) <$> keys_abc)) |}
                [] keys_abc).1 in
  out.1.2 = Some (MultiError [None; None; Some (ErrShortItem 1)])
  /\ (fun m : gmap string Item => map_to_list m) <$> out.1.1
     = Some [("a"%string,
              {| Key := "a"; Value := Some (Slice 0 4 1); Flags := 7;
                 Expiration := 0;
                 casInfo := CASInfo_bytes (Some (Slice 2 0 5)) |})]
  /\ out.2 = [payload_a; [x01]; payload_a].
Proof. vm_compute. auto. Qed.

(** Overwriting the value of the item returned for "a" through its
    [Value] slice changes the value and not the token. *)
Example token_survives_write :
  let hf := [payload_a; [x01]; payload_a] in
  let hw := store_byte hf 0 4 x79 in
  slice_bytes hw (Slice 0 4 1) = [x79]
  /\ slice_bytes hw (Slice 2 0 5) = payload_a.
Proof. vm_compute. auto. Qed.

(** The script on the small server: a match with an expiry, a match
    without, and a conflict. *)
Example casScript_runs :
  let sv : MiniServer.Server := {["a" := (payload_a, None)]} in
  (casScript _ MiniServer.redis_call "a" payload_a [x01] 1 sv).1
  = LuaStatus "OK"
  /\ (casScript _ MiniServer.redis_call "a" payload_a [x01] 1 sv).2 !! "a"
     = Some ([x01], Some 1)
  /\ (casScript _ MiniServer.redis_call "a" payload_a [x01] (-1) sv).2 !! "a"
     = Some ([x01], None)
  /\ casScript _ MiniServer.redis_call "a" [x02] [x01] 1 sv
     = (LuaError "cas conflict", sv).
Proof. vm_compute. auto. Qed.

End BackendExamples.
End Examples.
(** * More properties *)

(** ** The batch writers of the Redis backend *)

Module WriterFacts.
Import Wire Mem St Redis RedisWords WireFacts MemFacts StFacts RedisFacts.
Local Open Scope st_scope.

Section Writers.
Context {C : Type} `{Conn C}.

(** *** The calls on the connection *)

Lemma Send_calls cmd (s : ConnState C) :
  calls (Send cmd s).2 = calls s ++ [CallSend cmd (Send cmd s).1].
Proof. unfold Send. now destruct (conn_Send cmd (conn s)). Qed.

Lemma Flush_calls (s : ConnState C) :
  calls (Flush s).2 = calls s ++ [CallFlush (Flush s).1].
Proof. unfold Flush. now destruct (conn_Flush (conn s)). Qed.

Lemma Receive_calls (s : ConnState C) :
  calls (Receive s).2 = calls s ++ [CallReceive (Receive s).1.2].
Proof. unfold Receive. now destruct (conn_Receive (conn s)). Qed.

Lemma Close_calls (s : ConnState C) :
  calls (Close s).2 = calls s ++ [CallClose].
Proof. reflexivity. Qed.

Lemma Send_fst cmd (s : ConnState C) :
  (Send cmd s).1 = (conn_Send cmd (conn s)).1.
Proof. unfold Send. now destruct (conn_Send cmd (conn s)). Qed.

Lemma Flush_fst (s : ConnState C) : (Flush s).1 = (conn_Flush (conn s)).1.
Proof. unfold Flush. now destruct (conn_Flush (conn s)). Qed.

Lemma Receive_fst (s : ConnState C) :
  (Receive s).1 = (conn_Receive (conn s)).1.
Proof. unfold Receive. now destruct (conn_Receive (conn s)). Qed.

Lemma recv_one_set nx : recv_one (C:=C) (set_recv nx).
Proof.
  intros s. unfold set_recv. rewrite bind_run. unfold ret. cbn [snd].
  eexists. apply Receive_calls.
Qed.

Lemma recv_one_cas : recv_one (C:=C) cas_recv.
Proof.
  intros s. unfold cas_recv. rewrite bind_run. unfold ret. cbn [snd].
  eexists. apply Receive_calls.
Qed.

Lemma recv_one_del : recv_one (C:=C) del_recv.
Proof.
  intros s. unfold del_recv. rewrite bind_run.
  destruct (redis_Int64 (Receive s).1). unfold ret. cbn [snd].
  eexists. apply Receive_calls.
Qed.

(** *** Around the body of [GetMulti] *)

Lemma with_conn_run {A} (b : backend) (c : C) (fail : error -> A)
    (body : M (ConnState C) A) :
  store b = inr c ->
  with_conn b fail body
  = ((body {| conn := c; calls := [] |}).1,
     Some (Close (body {| conn := c; calls := [] |}).2).2).
Proof.
  intros Hb. unfold with_conn. rewrite Hb.
  rewrite bind_run. cbv beta. rewrite bind_run. reflexivity.
Qed.

Lemma with_conn_fail {A} (b : backend) (e : redis_err) (fail : error -> A)
    (body : M (ConnState C) A) :
  store b = inl e -> with_conn b fail body = (fail (ConnErr e), None).
Proof. intros Hb. unfold with_conn. now rewrite Hb. Qed.

(** *** Runs of the two goroutines *)

Section Runs.
Variable jobs : list Job.
Variable recv : M (ConnState C) (option error).

(** What both goroutines keep at every step holds at the end of every
    run. *)
Lemma batch_invariant (I : Machine -> Prop) (sched : Schedule) (c : C) :
  I (spawned jobs c) ->
  (forall m, I m -> I (step_sender jobs m)) ->
  (forall m, I m -> I (step_caller recv (length jobs) m)) ->
  I (batch sched jobs recv c).
Proof.
  intros H0 Hs Hc. unfold batch.
  assert (Hit : forall f : Machine -> Machine,
             (forall m, I m -> I (f m)) ->
             forall k m, I m -> I (Nat.iter k f m)).
  { intros f Hf k. induction k as [|k IH]; intros m Hm; [exact Hm|].
    rewrite Nat.iter_succ. auto. }
  apply Hit; [exact Hs|]. apply Hit; [exact Hc|].
  generalize (spawned jobs c) H0. induction sched as [|w sched IH];
    intros m Hm; [exact Hm|].
  cbn [foldl]. apply IH. destruct w; cbn [step]; auto.
Qed.

Lemma step_sender_caller m : m_caller (step_sender jobs m) = m_caller m.
Proof.
  unfold step_sender. destruct (m_sender m) as [i|i e|e|]; try reflexivity.
  destruct (jobs !! i) as [[cmd|]|]; reflexivity.
Qed.

Lemma step_caller_sender n m : m_sender (step_caller recv n m) = m_sender m.
Proof.
  unfold step_caller.
  destruct (m_caller m) as [i x|i x|i x|i e|x|r|r]; try reflexivity.
  - destruct (i <? n)%nat; [|reflexivity]. now destruct (m_flushErr m).
  - now destruct (m_me m !! i) as [[e|]|].
Qed.

Lemma step_sender_rank m :
  (sender_rank (length jobs) (m_sender (step_sender jobs m))
   <= pred (sender_rank (length jobs) (m_sender m)))%nat.
Proof.
  unfold step_sender. destruct (m_sender m) as [i|i e|e|] eqn:Epc.
  - destruct (jobs !! i) as [[cmd|]|] eqn:Ej.
    + apply lookup_lt_Some in Ej.
      destruct (Send cmd (m_conn m)).1; cbn [sender_to m_sender sender_rank];
        lia.
    + apply lookup_lt_Some in Ej. cbn [sender_to m_sender sender_rank]. lia.
    + apply lookup_ge_None in Ej. cbn [sender_to m_sender sender_rank]. lia.
  - cbn [sender_to m_sender sender_rank]. lia.
  - cbn [sender_to m_sender sender_rank]. lia.
  - rewrite Epc. cbn [sender_rank]. lia.
Qed.

Lemma step_caller_rank n m :
  (caller_rank n (m_caller (step_caller recv n m))
   <= pred (caller_rank n (m_caller m)))%nat.
Proof.
  unfold step_caller.
  destruct (m_caller m) as [i x|i x|i x|i e|x|r|r] eqn:Epc.
  - destruct (Nat.ltb_spec i n);
      [destruct (m_flushErr m)|];
      cbn [caller_to m_caller caller_rank]; lia.
  - destruct (m_me m !! i) as [[e|]|];
      cbn [caller_to m_caller caller_rank]; lia.
  - destruct (recv (m_conn m)).1;
      cbn [caller_to m_caller caller_rank]; lia.
  - cbn [caller_to m_caller caller_rank]. lia.
  - cbn [caller_to m_caller caller_rank]. lia.
  - cbn [caller_to m_caller caller_rank]. lia.
  - rewrite Epc. cbn [caller_rank]. lia.
Qed.

Lemma iter_rank (f : Machine (C:=C) -> Machine (C:=C))
    (rank : Machine (C:=C) -> nat) :
  (forall m, (rank (f m) <= pred (rank m))%nat) ->
  forall k m, (rank (Nat.iter k f m) <= rank m - k)%nat.
Proof.
  intros Hf k. induction k as [|k IH]; intros m; [cbn; lia|].
  rewrite Nat.iter_succ. specialize (Hf (Nat.iter k f m)).
  specialize (IH m). lia.
Qed.

Lemma iter_keeps {A} (f : Machine (C:=C) -> Machine (C:=C))
    (g : Machine (C:=C) -> A) :
  (forall m, g (f m) = g m) -> forall k m, g (Nat.iter k f m) = g m.
Proof.
  intros Hf k. induction k as [|k IH]; intros m; [reflexivity|].
  now rewrite Nat.iter_succ, Hf.
Qed.

(** Every run ends, with both goroutines done. *)
Lemma batch_done (sched : Schedule) (c : C) :
  m_sender (batch sched jobs recv c) = SenderDone
  /\ exists r, m_caller (batch sched jobs recv c) = CallerDone r.
Proof.
  assert (Hrun : forall sched m,
            let m' := foldl (fun m w => step jobs recv w m) m sched in
            (sender_rank (length jobs) (m_sender m')
             <= sender_rank (length jobs) (m_sender m))%nat
            /\ (caller_rank (length jobs) (m_caller m')
                <= caller_rank (length jobs) (m_caller m))%nat).
  { clear sched. induction sched as [|w sched IH]; intros m; cbn zeta;
      cbn [foldl]; [split; lia|].
    destruct (IH (step jobs recv w m)) as [Hs Hc].
    destruct w; cbn [step] in Hs, Hc |- *.
    - rewrite step_caller_sender in Hs.
      pose proof (step_caller_rank (length jobs) m). split; lia.
    - rewrite step_sender_caller in Hc.
      pose proof (step_sender_rank m). split; lia. }
  unfold batch.
  set (m1 := foldl (fun m w => step jobs recv w m) (spawned jobs c) sched).
  destruct (Hrun sched (spawned jobs c)) as [Hs1 Hc1]. fold m1 in Hs1, Hc1.
  cbn [spawned m_sender m_caller sender_rank caller_rank] in Hs1, Hc1.
  set (m2 := Nat.iter (caller_steps (length jobs))
               (step_caller recv (length jobs)) m1).
  assert (Hc2 : caller_rank (length jobs) (m_caller m2) = 0%nat).
  { pose proof (iter_rank (step_caller recv (length jobs))
                  (fun m => caller_rank (length jobs) (m_caller m))
                  (step_caller_rank (length jobs))
                  (caller_steps (length jobs)) m1) as Hr.
    fold m2 in Hr. unfold caller_steps in Hr. cbv beta in Hr. lia. }
  assert (Hs2 : m_sender m2 = m_sender m1).
  { unfold m2. apply (iter_keeps _ m_sender). apply step_caller_sender. }
  set (m3 := Nat.iter (sender_steps (length jobs)) (step_sender jobs) m2).
  assert (Hs3 : sender_rank (length jobs) (m_sender m3) = 0%nat).
  { pose proof (iter_rank (step_sender jobs)
                  (fun m => sender_rank (length jobs) (m_sender m))
                  step_sender_rank (sender_steps (length jobs)) m2) as Hr.
    fold m3 in Hr. cbv beta in Hr. rewrite Hs2 in Hr.
    unfold sender_steps in Hr. lia. }
  assert (Hc3 : m_caller m3 = m_caller m2).
  { unfold m3. apply (iter_keeps _ m_caller). apply step_sender_caller. }
  split.
  - destruct (m_sender m3); cbn [sender_rank] in Hs3; try lia. reflexivity.
  - rewrite Hc3. destruct (m_caller m2) as [i x|i x|i x|i e|x|r|r];
      cbn [caller_rank] in Hc2; try lia. eauto.
Qed.

(** *** The commands sent *)

Lemma commands_snoc (l : list Job) (j : Job) :
  commands (l ++ [j])
  = commands l ++ match j with Some cmd => [cmd] | None => [] end.
Proof. unfold commands. rewrite omap_app. now destruct j. Qed.

Lemma sent_snoc (cs : list Call) (c : Call) :
  sent (cs ++ [c])
  = sent cs ++ match c with CallSend cmd _ => [cmd] | _ => [] end.
Proof. rewrite sent_app. now destruct c. Qed.

Lemma sent_inv_sender m : sent_inv jobs m -> sent_inv jobs (step_sender jobs m).
Proof.
  unfold sent_inv, step_sender. intros Hm.
  destruct (m_sender m) as [i|i e|e|] eqn:Epc; cbn [sender_pos] in Hm.
  - destruct (jobs !! i) as [[cmd|]|] eqn:Ej.
    + assert (Hs : sent (calls (Send cmd (m_conn m)).2)
                   = commands (take (S i) jobs)).
      { rewrite Send_calls, sent_snoc, Hm.
        now rewrite (take_S_r _ _ _ Ej), commands_snoc. }
      destruct (Send cmd (m_conn m)).1;
        cbn [sender_to on_conn m_conn m_sender sender_pos]; exact Hs.
    + cbn [sender_to store_me m_conn m_sender sender_pos].
      now rewrite Hm, (take_S_r _ _ _ Ej), commands_snoc, app_nil_r.
    + cbn [sender_to on_conn m_conn m_sender sender_pos].
      rewrite Flush_calls, sent_snoc, app_nil_r, Hm.
      apply lookup_ge_None in Ej. now rewrite !take_ge by lia.
  - cbn [sender_to store_me m_conn m_sender sender_pos]. exact Hm.
  - cbn [sender_to store_flushErr m_conn m_sender sender_pos]. exact Hm.
  - rewrite Epc. exact Hm.
Qed.

Lemma sent_inv_caller n m :
  recv_one recv -> sent_inv jobs m -> sent_inv jobs (step_caller recv n m).
Proof.
  unfold sent_inv. intros Hrecv Hm. rewrite step_caller_sender.
  rewrite <- Hm. unfold step_caller.
  destruct (m_caller m) as [i x|i x|i x|i e|x|r|r]; try reflexivity.
  - destruct (i <? n)%nat; [|reflexivity]. now destruct (m_flushErr m).
  - now destruct (m_me m !! i) as [[e|]|].
  - destruct (Hrecv (m_conn m)) as [e He].
    destruct (recv (m_conn m)).1;
      cbn [caller_to on_conn m_conn]; rewrite He, sent_snoc;
      apply app_nil_r.
  - cbn [caller_to on_conn m_conn]. rewrite Close_calls, sent_snoc.
    apply app_nil_r.
Qed.

(** Whatever the schedule, the commands sent in a run are those of the
    jobs, in order. *)
Lemma batch_sent (sched : Schedule) (c : C) :
  recv_one recv ->
  sent (calls (m_conn (batch sched jobs recv c))) = commands jobs.
Proof.
  intros Hrecv.
  assert (Hinv : sent_inv jobs (batch sched jobs recv c)).
  { apply batch_invariant.
    - reflexivity.
    - apply sent_inv_sender.
    - intros m. now apply sent_inv_caller. }
  unfold sent_inv in Hinv.
  rewrite (proj1 (batch_done sched c)) in Hinv. cbn [sender_pos] in Hinv.
  now rewrite take_ge in Hinv by lia.
Qed.

(** *** The kinds of errors *)

Lemma has_error_insert (me : MultiErr) i e :
  has_error me -> has_error (<[i := Some e]> me).
Proof.
  intros (j & e' & Hj). destruct (decide (j = i)) as [->|Hne].
  - exists i, e. apply list_lookup_insert_eq. eapply lookup_lt_Some; eauto.
  - exists j, e'. now rewrite list_lookup_insert_ne by congruence.
Qed.

Lemma kinds_insert (P : error -> bool) (me : MultiErr) i e :
  (forall j e', me !! j = Some (Some e') -> P e' = true) ->
  P e = true ->
  forall j e', <[i := Some e]> me !! j = Some (Some e') -> P e' = true.
Proof.
  intros Hme He j e' Hj. destruct (decide (j = i)) as [->|Hne].
  - destruct (decide (i < length me)%nat) as [Hlt|Hge].
    + rewrite list_lookup_insert_eq in Hj by assumption. congruence.
    + rewrite list_insert_ge in Hj by lia. eauto.
  - rewrite list_lookup_insert_ne in Hj by congruence. eauto.
Qed.

Section Kinds.
Variable P : error -> bool.
Hypothesis P_conn : forall e, P (ConnErr e) = true.
Hypothesis P_job : forall i, jobs !! i = Some None -> P ErrNotStored = true.
Hypothesis P_recv : forall s e, (recv s).1 = Some e -> P e = true.

Lemma kinds_inv_sender m :
  kinds_inv P (length jobs) m -> kinds_inv P (length jobs) (step_sender jobs m).
Proof.
  intros Hm. unfold step_sender.
  destruct (m_sender m) as [i|i e|e|] eqn:Epc.
  - destruct (jobs !! i) as [[cmd|]|] eqn:Ej.
    + destruct (Send cmd (m_conn m)).1; exact Hm.
    + destruct Hm as (Hl & Hk & Hc). unfold kinds_inv.
      cbn [sender_to store_me m_me m_caller].
      split; [now rewrite length_insert|].
      split; [apply kinds_insert; eauto|].
      destruct (m_caller m) as [j x|j x|j x|j e'|x|r|r]; try assumption.
      * intros Hx. now apply has_error_insert, Hc.
      * split; [apply Hc|]. intros Hx. now apply has_error_insert, Hc.
      * split; [apply Hc|]. intros Hx. now apply has_error_insert, Hc.
      * intros Hx. now apply has_error_insert, Hc.
    + exact Hm.
  - destruct Hm as (Hl & Hk & Hc). unfold kinds_inv.
    cbn [sender_to store_me m_me m_caller].
    split; [now rewrite length_insert|].
    split; [apply kinds_insert; eauto|].
    destruct (m_caller m) as [j x|j x|j x|j e'|x|r|r]; try assumption.
    + intros Hx. now apply has_error_insert, Hc.
    + split; [apply Hc|]. intros Hx. now apply has_error_insert, Hc.
    + split; [apply Hc|]. intros Hx. now apply has_error_insert, Hc.
    + intros Hx. now apply has_error_insert, Hc.
  - exact Hm.
  - exact Hm.
Qed.

Lemma kinds_inv_caller n m :
  kinds_inv P n m -> kinds_inv P n (step_caller recv n m).
Proof.
  intros (Hl & Hk & Hc). unfold step_caller, kinds_inv.
  destruct (m_caller m) as [i x|i x|i x|i e|x|r|r] eqn:Epc.
  - destruct (Nat.ltb_spec i n);
      [destruct (m_flushErr m)|]; cbn [caller_to m_me m_caller];
      (split; [assumption|]); (split; [assumption|]);
      try assumption. now split.
  - destruct Hc as [Hi Hx].
    destruct (m_me m !! i) as [[e|]|] eqn:Ei; cbn [caller_to m_me m_caller];
      (split; [assumption|]); (split; [assumption|]); [|now split..].
    intros _. exists i, e. exact Ei.
  - destruct Hc as [Hi Hx].
    destruct (recv (m_conn m)).1 as [e|] eqn:Er;
      cbn [caller_to on_conn m_me m_caller];
      (split; [assumption|]); (split; [assumption|]).
    + split; [assumption|]. eapply P_recv; eauto.
    + assumption.
  - destruct Hc as [Hi He]. cbn [caller_to store_me m_me m_caller].
    split; [now rewrite length_insert|].
    split; [now apply kinds_insert|]. intros _. exists i, e.
    apply list_lookup_insert_eq. lia.
  - cbn [caller_to m_me m_caller]. split; [assumption|].
    split; [assumption|]. unfold batch_result.
    destruct (m_flushErr m) as [e|]; [exact I|]. cbn [snd fst].
    destruct x; [|exact I]. cbn [batch_error_of].
    split; [assumption|]. split; [now apply Hc|assumption].
  - cbn [caller_to on_conn m_me m_caller].
    split; [assumption|]. now split.
  - rewrite Epc. split; [assumption|]. now split.
Qed.

(** Whatever the schedule, a run returns nil, a connection error, or a
    [MultiError] of the length of the batch with an error in some slot
    and only errors of kind [P]. *)
Lemma batch_kinds (sched : Schedule) (c : C) :
  batch_error_of P (length jobs) (returned (batch sched jobs recv c)).
Proof.
  assert (Hinv : kinds_inv P (length jobs) (batch sched jobs recv c)).
  { apply batch_invariant.
    - unfold kinds_inv. cbn [spawned m_me m_caller].
      split; [apply length_replicate|]. split; [|discriminate].
      intros i e Hi. apply lookup_replicate in Hi as [Hi _]. discriminate.
    - apply kinds_inv_sender.
    - apply kinds_inv_caller. }
  destruct (batch_done sched c) as [_ [r Hr]].
  destruct Hinv as (_ & _ & Hc).
  unfold returned. rewrite Hr in Hc |- *. exact Hc.
Qed.

End Kinds.

(** *** A connection on which nothing fails *)

Lemma calm_inv_sender m :
  healthy (C:=C) -> (forall i, jobs !! i <> Some None) ->
  calm_inv m -> calm_inv (step_sender jobs m).
Proof.
  intros (HS & HF & _) Hjobs (Hf & Hme & Hs & Hc). unfold step_sender.
  destruct (m_sender m) as [i|i e|e|] eqn:Epc.
  - destruct (jobs !! i) as [[cmd|]|] eqn:Ej.
    + rewrite Send_fst, HS. now split.
    + now contradiction (Hjobs i).
    + rewrite Flush_fst, HF. now split.
  - contradiction.
  - destruct e; [contradiction|]. now split.
  - unfold calm_inv. rewrite Epc. now split.
Qed.

Lemma calm_inv_caller n m :
  (forall s, (recv s).1 = None) ->
  calm_inv m -> calm_inv (step_caller recv n m).
Proof.
  intros Hrecv (Hf & Hme & Hs & Hc). unfold step_caller.
  destruct (m_caller m) as [i x|i x|i x|i e|x|r|r] eqn:Epc.
  - destruct (i <? n)%nat; [rewrite Hf|]; now split.
  - destruct (m_me m !! i) as [[e|]|] eqn:Ei; [|now split..].
    now contradiction (Hme i e).
  - rewrite Hrecv. now split.
  - contradiction.
  - rewrite Hf, Hc. now split.
  - now split.
  - unfold calm_inv. rewrite Epc. now split.
Qed.

(** On a connection on which nothing fails, with a command for every
    slot, every run returns nil. *)
Lemma batch_calm (sched : Schedule) (c : C) :
  healthy (C:=C) -> (forall i, jobs !! i <> Some None) ->
  (forall s, (recv s).1 = None) ->
  returned (batch sched jobs recv c) = None.
Proof.
  intros Hh Hjobs Hrecv.
  assert (Hinv : calm_inv (batch sched jobs recv c)).
  { apply batch_invariant.
    - split; [reflexivity|]. split; [|now split].
      intros j e Hj. apply lookup_replicate in Hj as [Hj _]. discriminate.
    - intros m. now apply calm_inv_sender.
    - intros m. now apply calm_inv_caller. }
  destruct (batch_done sched c) as [_ [r Hr]].
  destruct Hinv as (_ & _ & _ & Hc).
  unfold returned. rewrite Hr in Hc |- *. exact Hc.
Qed.

(** *** The calls of each goroutine *)

Lemma filter_snoc (f : Call -> bool) (cs : list Call) (c : Call) :
  List.filter f (cs ++ [c])
  = List.filter f cs ++ (if f c then [c] else []).
Proof. rewrite List.filter_app. reflexivity. Qed.

Lemma sender_inv_sender m : sender_inv jobs m -> sender_inv jobs (step_sender jobs m).
Proof.
  unfold sender_inv, step_sender. intros (errs & Hl & Hm).
  destruct (m_sender m) as [i|i e|e|] eqn:Epc;
    cbn [sender_pos] in Hl, Hm |- *.
  - destruct (jobs !! i) as [[cmd|]|] eqn:Ej.
    + exists (errs ++ [(Send cmd (m_conn m)).1]).
      assert (Hc : commands (take (S i) jobs) = commands (take i jobs) ++ [cmd]).
      { now rewrite (take_S_r _ _ _ Ej), commands_snoc. }
      assert (Hf : List.filter by_sender (calls (Send cmd (m_conn m)).2)
                   = zip_with CallSend (commands (take (S i) jobs))
                       (errs ++ [(Send cmd (m_conn m)).1])).
      { rewrite Send_calls, filter_snoc, Hm, Hc.
        cbn [by_sender]. now rewrite zip_with_app by (symmetry; exact Hl). }
      destruct (Send cmd (m_conn m)).1 eqn:Es;
        cbn [sender_to on_conn m_conn m_sender sender_pos];
        (split; [rewrite Hc, !length_app, Hl; reflexivity|exact Hf]).
    + exists errs. cbn [sender_to store_me m_conn m_sender sender_pos].
      rewrite (take_S_r _ _ _ Ej), commands_snoc, app_nil_r. now split.
    + exists errs. cbn [sender_to on_conn m_conn m_sender sender_pos].
      apply lookup_ge_None in Ej. rewrite !take_ge in Hl, Hm |- * by lia.
      split; [exact Hl|]. rewrite Flush_calls, filter_snoc, Hm. reflexivity.
  - exists errs. cbn [sender_to store_me m_conn m_sender sender_pos].
    now split.
  - exists errs. cbn [sender_to store_flushErr m_conn m_sender sender_pos].
    split; [exact Hl|]. eauto.
  - exists errs. rewrite Epc. cbn [sender_pos]. now split.
Qed.

(** A step of the caller adds calls of the caller only, and a step of
    the sender calls of the sender only. *)
Lemma step_caller_calls n m :
  recv_one recv ->
  exists cs, calls (m_conn (step_caller recv n m)) = calls (m_conn m) ++ cs
             /\ Forall (fun c => by_caller c = true) cs.
Proof.
  intros Hrecv. unfold step_caller.
  destruct (m_caller m) as [i x|i x|i x|i e|x|r|r];
    try (exists []; rewrite app_nil_r; split; [reflexivity|constructor]).
  - exists []. rewrite app_nil_r. split; [|constructor].
    destruct (i <? n)%nat; [|reflexivity]. now destruct (m_flushErr m).
  - exists []. rewrite app_nil_r. split; [|constructor].
    now destruct (m_me m !! i) as [[e|]|].
  - destruct (Hrecv (m_conn m)) as [e He]. exists [CallReceive e].
    split; [|now repeat constructor].
    now destruct (recv (m_conn m)).1.
  - exists [CallClose]. split; [reflexivity|now repeat constructor].
Qed.

Lemma step_sender_calls m :
  exists cs, calls (m_conn (step_sender jobs m)) = calls (m_conn m) ++ cs
             /\ Forall (fun c => by_sender c = true) cs.
Proof.
  unfold step_sender.
  destruct (m_sender m) as [i|i e|e|];
    try (exists []; rewrite app_nil_r; split; [reflexivity|constructor]).
  destruct (jobs !! i) as [[cmd|]|].
  - exists [CallSend cmd (Send cmd (m_conn m)).1].
    split; [|now repeat constructor].
    rewrite <- Send_calls. now destruct (Send cmd (m_conn m)).1.
  - exists []. rewrite app_nil_r. split; [reflexivity|constructor].
  - exists [CallFlush (Flush (m_conn m)).1].
    split; [|now repeat constructor]. now rewrite <- Flush_calls.
Qed.

Lemma filter_others (f g : Call -> bool) (cs new : list Call) :
  (forall c, g c = true -> f c = false) ->
  Forall (fun c => g c = true) new ->
  List.filter f (cs ++ new) = List.filter f cs.
Proof.
  intros Hfg Hnew. rewrite List.filter_app.
  induction Hnew as [|c new Hc _ IH]; [apply app_nil_r|].
  cbn [List.filter]. now rewrite (Hfg c Hc).
Qed.

Lemma sender_inv_caller n m :
  recv_one recv -> sender_inv jobs m -> sender_inv jobs (step_caller recv n m).
Proof.
  intros Hrecv. unfold sender_inv. rewrite step_caller_sender.
  destruct (step_caller_calls n m Hrecv) as (cs & -> & Hcs).
  rewrite (filter_others by_sender by_caller); [auto| |exact Hcs].
  now intros [].
Qed.

Lemma caller_inv_sender n m : caller_inv n m -> caller_inv n (step_sender jobs m).
Proof.
  unfold caller_inv. rewrite step_sender_caller.
  destruct (step_sender_calls m) as (cs & -> & Hcs).
  rewrite (filter_others by_caller by_sender); [auto| |exact Hcs].
  now intros [].
Qed.

Lemma caller_inv_caller n m :
  recv_one recv -> caller_inv n m -> caller_inv n (step_caller recv n m).
Proof.
  intros Hrecv (recvs & Hm). unfold caller_inv, step_caller.
  destruct (m_caller m) as [i x|i x|i x|i e|x|r|r] eqn:Epc.
  - destruct Hm as (Hi & Hl & Hf). exists recvs.
    destruct (Nat.ltb_spec i n);
      [destruct (m_flushErr m)|]; cbn [caller_to m_conn m_caller];
      repeat split; try assumption; lia.
  - destruct Hm as (Hi & Hl & Hf). exists recvs.
    destruct (m_me m !! i) as [[e|]|]; cbn [caller_to m_conn m_caller];
      repeat split; try assumption; lia.
  - destruct Hm as (Hi & Hl & Hf). destruct (Hrecv (m_conn m)) as [e He].
    exists (recvs ++ [e]).
    assert (Hf' : List.filter by_caller (calls (recv (m_conn m)).2)
                  = CallReceive <$> (recvs ++ [e])).
    { rewrite He, filter_snoc, Hf, fmap_app. reflexivity. }
    destruct (recv (m_conn m)).1;
      cbn [caller_to on_conn m_conn m_caller];
      rewrite length_app; cbn [length];
      repeat split; try assumption; lia.
  - destruct Hm as (Hi & Hl & Hf). exists recvs.
    cbn [caller_to store_me m_conn m_caller]. repeat split; try assumption; lia.
  - exists recvs. cbn [caller_to m_conn m_caller]. exact Hm.
  - destruct Hm as (Hl & Hf). exists recvs.
    cbn [caller_to on_conn m_conn m_caller]. split; [assumption|].
    rewrite Close_calls, filter_snoc, Hf. reflexivity.
  - exists recvs. rewrite Epc. exact Hm.
Qed.

(** Whatever the schedule, the calls of a run are those of the two
    goroutines, each in its own order. *)
Lemma batch_two_goroutines (sched : Schedule) (c : C) :
  recv_one recv ->
  two_goroutines (commands jobs) (length jobs)
    (calls (m_conn (batch sched jobs recv c))).
Proof.
  intros Hrecv.
  assert (Hinv : sender_inv jobs (batch sched jobs recv c)
                 /\ caller_inv (length jobs) (batch sched jobs recv c)
                 /\ Forall (fun c => by_sender c || by_caller c = true)
                      (calls (m_conn (batch sched jobs recv c)))).
  { apply (batch_invariant
             (fun m => sender_inv jobs m /\ caller_inv (length jobs) m
                       /\ Forall (fun c => by_sender c || by_caller c = true)
                            (calls (m_conn m)))).
    - split; [|split].
      + exists []. now split.
      + exists []. cbn [spawned m_caller m_conn calls].
        split; [lia|]. split; [cbn; lia|reflexivity].
      + constructor.
    - intros m (Hs & Hc & Ha). split; [|split].
      + now apply sender_inv_sender.
      + now apply caller_inv_sender.
      + destruct (step_sender_calls m) as (cs & -> & Hcs).
        apply Forall_app. split; [assumption|].
        eapply Forall_impl; [exact Hcs|]. cbn. now intros x ->.
    - intros m (Hs & Hc & Ha). split; [|split].
      + now apply sender_inv_caller.
      + now apply caller_inv_caller.
      + destruct (step_caller_calls (length jobs) m Hrecv) as (cs & -> & Hcs).
        apply Forall_app. split; [assumption|].
        eapply Forall_impl; [exact Hcs|]. cbn. intros x ->.
        apply orb_true_r. }
  destruct Hinv as ((errs & Hl & Hs) & (recvs & Hc) & Ha).
  destruct (batch_done sched c) as [Hsd [r Hr]].
  rewrite Hsd in Hl, Hs. rewrite Hr in Hc. cbn [sender_pos] in Hl, Hs.
  rewrite take_ge in Hl, Hs by lia. destruct Hs as [e Hs].
  split; [|split].
  - exists errs, e. now split.
  - exists recvs. exact Hc.
  - exact Ha.
Qed.

End Runs.

(** *** What a reply becomes *)

Lemma set_recv_kinds nx (s : ConnState C) e :
  (set_recv nx s).1 = Some e ->
  (if nx then is_add_err e else is_conn_err e) = true.
Proof.
  unfold set_recv. rewrite bind_run. unfold ret. cbn [fst].
  destruct (Receive s).1.2 as [[|msg]|]; destruct nx;
    intros [= <-]; reflexivity.
Qed.

Lemma cas_recv_kinds (s : ConnState C) e :
  (cas_recv s).1 = Some e -> is_cas_err e = true.
Proof.
  unfold cas_recv. rewrite bind_run. unfold ret. cbn [fst].
  destruct (Receive s).1.2 as [[|msg]|]; cbn [Error].
  - intros [= <-]. reflexivity.
  - destruct (String.eqb msg "cas conflict"); intros [= <-]; reflexivity.
  - discriminate.
Qed.

Lemma del_recv_kinds (s : ConnState C) e :
  (del_recv s).1 = Some e -> is_del_err e = true.
Proof.
  unfold del_recv. rewrite bind_run.
  destruct (redis_Int64 (Receive s).1) as [n [x|]]; unfold ret; cbn [fst].
  - intros [= <-]. reflexivity.
  - destruct (n =? 1); [discriminate|]. intros [= <-]. reflexivity.
Qed.

(** *** The methods *)

Lemma commands_Some {A} (f : A -> Command) (l : list A) :
  commands ((fun x => Some (f x)) <$> l) = f <$> l.
Proof.
  unfold commands. induction l as [|x l IH]; [reflexivity|].
  cbn. now rewrite <- IH.
Qed.

Lemma Some_jobs {A} (f : A -> Command) (l : list A) i :
  ((fun x => Some (f x)) <$> l) !! i <> Some None.
Proof. rewrite list_lookup_fmap. now destruct (l !! i). Qed.

Section Methods.
Variable casSha : string.
Variable sched : Schedule.
Variable b : backend (C:=C).
Variable h : Heap.
Variable items : list Item.
Variable keys : list string.

Lemma commands_cas :
  commands (cas_job casSha h <$> items) = omap (token_command casSha h) items.
Proof.
  unfold commands. induction items as [|item rest IH]; [reflexivity|].
  cbn [fmap list_fmap omap list_omap]. rewrite <- IH.
  change (token_command casSha h item) with (cas_job casSha h item).
  now destruct (cas_job casSha h item).
Qed.

Lemma CompareAndSwapMulti_sent (s : ConnState C) :
  (CompareAndSwapMulti casSha sched b h items).2 = Some s ->
  sent (calls s) = omap (token_command casSha h) items.
Proof.
  unfold CompareAndSwapMulti. destruct (store b) as [e|c]; [discriminate|].
  intros [= <-]. rewrite batch_sent by apply recv_one_cas.
  apply commands_cas.
Qed.

(** X3. One command per item.  Every item of a batch handed to [AddMulti]
    or [SetMulti] has its SET command handed to [Send], and every key
    handed to [DeleteMulti] its DEL command, in the order of the batch,
    whatever the earlier sends returned and however the two goroutines
    are scheduled; nothing else is sent. *)
Theorem every_slot_is_sent :
  (forall s, (AddMulti sched b h items).2 = Some s ->
     sent (calls s) = set_command h true <$> items)
  /\ (forall s, (SetMulti sched b h items).2 = Some s ->
       sent (calls s) = set_command h false <$> items)
  /\ (forall s, (DeleteMulti sched b keys).2 = Some s ->
       sent (calls s) = del_command <$> keys).
Proof.
  unfold AddMulti, SetMulti, DeleteMulti, set.
  destruct (store b) as [e|c]; [repeat split; discriminate|].
  repeat split; intros s [= <-]; cbn [outcome snd].
  - rewrite batch_sent by apply recv_one_set. apply commands_Some.
  - rewrite batch_sent by apply recv_one_set. apply commands_Some.
  - rewrite batch_sent by apply recv_one_del. apply commands_Some.
Qed.

(** X4. The results of the batch writers, however the two goroutines are
    scheduled.  Each returns nil, a single connection error (from the
    pool or the flush), or a [MultiError] with one slot per item of the
    batch, at least one of which holds an error.  The errors in the slots
    are connection errors and, besides, [ErrNotStored] for [AddMulti],
    [ErrNotStored] and [ErrCASConflict] for [CompareAndSwapMulti],
    [ErrCacheMiss] for [DeleteMulti], and nothing else for [SetMulti]. *)
Theorem batch_writers_results :
  batch_error_of is_add_err (length items) (AddMulti sched b h items).1
  /\ batch_error_of is_conn_err (length items) (SetMulti sched b h items).1
  /\ batch_error_of is_cas_err (length items)
       (CompareAndSwapMulti casSha sched b h items).1
  /\ batch_error_of is_del_err (length keys) (DeleteMulti sched b keys).1.
Proof.
  unfold AddMulti, SetMulti, CompareAndSwapMulti, DeleteMulti, set.
  destruct (store b) as [e|c]; [repeat split|]. cbn [outcome fst].
  repeat split.
  - rewrite <- (length_fmap (fun item => Some (set_command h true item)) items).
    apply batch_kinds; [reflexivity| |apply (set_recv_kinds true)].
    intros i Hi. now apply Some_jobs in Hi.
  - rewrite <- (length_fmap (fun item => Some (set_command h false item)) items).
    apply batch_kinds; [reflexivity| |apply (set_recv_kinds false)].
    intros i Hi. now apply Some_jobs in Hi.
  - rewrite <- (length_fmap (cas_job casSha h) items).
    apply batch_kinds; [reflexivity|reflexivity|apply cas_recv_kinds].
  - rewrite <- (length_fmap (fun key => Some (del_command key)) keys).
    apply batch_kinds; [reflexivity| |apply del_recv_kinds].
    intros i Hi. now apply Some_jobs in Hi.
Qed.

(** X1. The calls of the two goroutines, however they are scheduled.  On
    the connection a batch writer took, the sender's calls are the Sends
    of the commands of the batch, in order, and then one Flush; the
    caller's calls are Receives, as many as there are slots at most, and
    then one Close; and there is no other call.  Nothing orders the calls
    of the one against those of the other. *)
Theorem batch_writers_calls :
  (forall s, (AddMulti sched b h items).2 = Some s ->
     two_goroutines (set_command h true <$> items) (length items) (calls s))
  /\ (forall s, (SetMulti sched b h items).2 = Some s ->
       two_goroutines (set_command h false <$> items) (length items)
         (calls s))
  /\ (forall s, (CompareAndSwapMulti casSha sched b h items).2 = Some s ->
       two_goroutines (omap (token_command casSha h) items) (length items)
         (calls s))
  /\ (forall s, (DeleteMulti sched b keys).2 = Some s ->
       two_goroutines (del_command <$> keys) (length keys) (calls s)).
Proof.
  unfold AddMulti, SetMulti, CompareAndSwapMulti, DeleteMulti, set.
  destruct (store b) as [e|c];
    [(split; [|split; [|split]]); discriminate|].
  (split; [|split; [|split]]); intros s [= <-]; cbn [outcome snd].
  - rewrite <- (commands_Some (set_command h true) items).
    rewrite <- (length_fmap (fun item => Some (set_command h true item)) items).
    apply batch_two_goroutines, recv_one_set.
  - rewrite <- (commands_Some (set_command h false) items).
    rewrite <- (length_fmap (fun item => Some (set_command h false item)) items).
    apply batch_two_goroutines, recv_one_set.
  - rewrite <- commands_cas.
    rewrite <- (length_fmap (cas_job casSha h) items).
    apply batch_two_goroutines, recv_one_cas.
  - rewrite <- (commands_Some del_command keys).
    rewrite <- (length_fmap (fun key => Some (del_command key)) keys).
    apply batch_two_goroutines, recv_one_del.
Qed.

(** X7. On a connection on which no send, flush or receive fails,
    whatever the replies hold and however the two goroutines are
    scheduled: [AddMulti] and [SetMulti] return nil for every batch;
    [CompareAndSwapMulti] returns nil when every item of the batch
    carries a token; and [DeleteMulti] returns nil when [redis.Int64]
    reads the number 1 from every reply. *)
Theorem writers_on_healthy_connection (c : C) :
  healthy (C:=C) -> store b = inr c ->
  (AddMulti sched b h items).1 = None
  /\ (SetMulti sched b h items).1 = None
  /\ ((forall item, item ∈ items -> has_token item = true) ->
      (CompareAndSwapMulti casSha sched b h items).1 = None)
  /\ ((forall c', redis_Int64 (conn_Receive c').1 = (1, None)) ->
      (DeleteMulti sched b keys).1 = None).
Proof.
  intros Hh Hb.
  unfold AddMulti, SetMulti, CompareAndSwapMulti, DeleteMulti, set.
  rewrite Hb. cbn [outcome fst].
  assert (Hset : forall nx s, (set_recv nx s).1 = None).
  { intros nx s. unfold set_recv. rewrite bind_run. unfold ret. cbn [fst].
    rewrite Receive_fst. destruct Hh as (_ & _ & HR). now rewrite HR. }
  repeat split.
  - apply batch_calm; [assumption|apply Some_jobs|apply Hset].
  - apply batch_calm; [assumption|apply Some_jobs|apply Hset].
  - intros Htok. apply batch_calm; [assumption| |].
    + intros i Hi. rewrite list_lookup_fmap in Hi.
      destruct (items !! i) as [item|] eqn:Ei; [|discriminate].
      pose proof (Htok item (list_elem_of_lookup_2 _ _ _ Ei)) as Ht.
      cbn in Hi. unfold has_token in Ht. unfold cas_job in Hi.
      destruct (GetCASInfo item) as [|[cas|]|]; discriminate.
    + intros s. unfold cas_recv. rewrite bind_run. unfold ret. cbn [fst].
      rewrite Receive_fst. destruct Hh as (_ & _ & HR). now rewrite HR.
  - intros Hone. apply batch_calm; [assumption|apply Some_jobs|].
    intros s. unfold del_recv. rewrite bind_run, Receive_fst, Hone.
    reflexivity.
Qed.

(** X8. When the pool gives no connection, the five methods return the
    pool's error and use no connection; except that [GetMulti] with no
    keys returns a nil map and no error before it asks the pool. *)
Theorem pool_failure_is_returned (e : redis_err) :
  store b = inl e ->
  AddMulti sched b h items = (Some (ConnErr e), None)
  /\ SetMulti sched b h items = (Some (ConnErr e), None)
  /\ CompareAndSwapMulti casSha sched b h items = (Some (ConnErr e), None)
  /\ DeleteMulti sched b keys = (Some (ConnErr e), None)
  /\ GetMulti b h keys
     = (if bool_decide (keys = []) then (None, None, h)
        else (None, Some (ConnErr e), h), None).
Proof.
  intros Hb. unfold AddMulti, SetMulti, CompareAndSwapMulti, DeleteMulti.
  rewrite Hb. repeat split.
  unfold GetMulti. destruct keys as [|k ks]; [reflexivity|].
  cbn [length Nat.eqb]. rewrite bool_decide_eq_false_2 by discriminate.
  now rewrite (with_conn_fail b e).
Qed.

End Methods.

(** The run of an empty batch in which the caller goes on alone, and the
    one in which the sender is through first. *)
Lemma empty_caller_first (recv : M (ConnState C) (option error)) (c : C) :
  outcome (batch caller_first [] recv c)
  = (None,
     Some {| conn := (conn_Flush (conn_Close c)).2;
             calls := [CallClose; CallFlush (conn_Flush (conn_Close c)).1] |}).
Proof.
  cbv -[conn_Flush conn_Close].
  now destruct (conn_Flush (conn_Close c)).
Qed.

Lemma empty_sender_first (recv : M (ConnState C) (option error)) (c : C) :
  (outcome (batch (sender_first 0) [] recv c)).1
  = ConnErr <$> (conn_Flush c).1.
Proof.
  cbv -[conn_Flush conn_Close].
  now destruct (conn_Flush c) as [[e|] c1].
Qed.

(** C5. A batch writer given an empty batch has no reply to await: the
    caller, going on without the sender, reads [flushErr] before the
    sender has flushed, returns nil and closes the connection, and the
    [Flush] is made after the [Close].  So nil is returned whatever the
    [Flush] returns, also when it fails; the flush error is returned
    only in runs in which the sender has assigned [flushErr] before the
    caller reads it, as when the sender is through before the caller's
    loop starts. *)
Theorem flush_error_lost (casSha : string) (b : backend (C:=C)) (c : C)
    (h : Heap) :
  store b = inr c ->
  let f := conn_Flush (conn_Close c) in
  let lost := (None, Some {| conn := f.2;
                             calls := [CallClose; CallFlush f.1] |}) in
  AddMulti caller_first b h [] = lost
  /\ SetMulti caller_first b h [] = lost
  /\ CompareAndSwapMulti casSha caller_first b h [] = lost
  /\ DeleteMulti caller_first b [] = lost
  /\ (AddMulti (sender_first 0) b h []).1 = ConnErr <$> (conn_Flush c).1.
Proof.
  intros Hb. cbn zeta.
  unfold AddMulti, SetMulti, CompareAndSwapMulti, DeleteMulti, set.
  rewrite Hb. cbn [fmap list_fmap].
  rewrite !empty_caller_first, empty_sender_first. cbn [fst].
  repeat split.
Qed.

End Writers.
End WriterFacts.

(** ** The batch writers when the caller does not wait for the sender *)

Module RaceFacts.
Import Mem Redis RedisWords ScriptedConn Inputs.

(** C4. [CompareAndSwapMulti] on an item without a token followed by two
    items with one, the server answering the first command with "cas
    conflict" and the second with OK.  When the caller is at its first
    [Receive] while the sender works, it takes slot 0 for queued, since
    the sender has not yet stored [ErrNotStored] there, and awaits a
    reply for it: the item without a token gets [ErrCASConflict], the
    item whose token is stale gets no error, and the last item the error
    of a reply that never comes.  Only when the sender is through before
    the caller's loop starts are the slots [ErrNotStored],
    [ErrCASConflict] and nil.  In both runs the commands sent are those
    of the two items with a token. *)
Theorem CompareAndSwapMulti_race :
  let b := {| store := inr (replying [conflict; (RStatus "OK", None)]) |} in
  let items := [item_a; item_cas; item_cas] in
  let raced :=
    CompareAndSwapMulti "sha" (sender_at_first_receive 3) b heap_cas items in
  let joined := CompareAndSwapMulti "sha" (sender_first 3) b heap_cas items in
  has_token item_a = false /\ has_token item_cas = true
  /\ raced.1 = Some (MultiError [Some ErrCASConflict; None;
                                 Some (ConnErr (redis_Error "EOF"))])
  /\ joined.1 = Some (MultiError [Some ErrNotStored; Some ErrCASConflict;
                                  None])
  /\ sent <$> (calls <$> raced.2)
     = Some [cas_command "sha" heap_cas item_cas (Slice 1 0 3);
             cas_command "sha" heap_cas item_cas (Slice 1 0 3)]
  /\ sent <$> (calls <$> joined.2) = sent <$> (calls <$> raced.2).
Proof. vm_compute. repeat split. Qed.

(** One item on a connection on which the send and the flush fail, the
    caller going on alone: the [MultiError] of the slot is returned
    although the flush fails. *)
Example AddMulti_flush_error_lost :
  let b := {| store := inr broken |} in
  (AddMulti caller_first b heap_x [item_a]).1
  = Some (MultiError [Some (ConnErr (redis_Error "EOF"))])
  /\ flushed <$> (calls <$> (AddMulti caller_first b heap_x [item_a]).2)
     = Some [Some (redis_Error "write: broken pipe")].
Proof. vm_compute. repeat split. Qed.

End RaceFacts.

(** ** More on [GetMulti] *)

Module GetMoreFacts.
Import Wire Mem St Redis RedisWords WireFacts MemFacts StFacts GetFacts.
Import WriterFacts.
Local Open Scope st_scope.

Section GetMore.
Context {C : Type} `{Conn C}.

(** The body of [GetMulti], by cases on what the connection answers. *)
Lemma get_body_cases (h : Heap) (keys : list string) (s : ConnState C) :
  let r := (conn_Do (mget_command keys) (conn s)).1 in
  let rs := (redis_ByteSlices r).1 in
  calls (get_body h keys s).2 = calls s ++ [CallDo (mget_command keys) r.2]
  /\ match (redis_ByteSlices r).2 with
     | Some e => (get_body h keys s).1 = (None, Some (ConnErr e), h)
     | None =>
         length rs <> length keys ->
         (get_body h keys s).1
         = (None, Some (ErrLenMismatch (length rs) (length keys)),
            (alloc_replies h rs).1)
     end.
Proof.
  cbn zeta. unfold get_body. rewrite bind_run.
  assert (HD : Do (mget_command keys) s
               = ((conn_Do (mget_command keys) (conn s)).1,
                  {| conn := (conn_Do (mget_command keys) (conn s)).2;
                     calls := calls s
                       ++ [CallDo (mget_command keys)
                             (conn_Do (mget_command keys) (conn s)).1.2] |})).
  { unfold Do. now destruct (conn_Do (mget_command keys) (conn s)). }
  rewrite HD. clear HD.
  destruct (conn_Do (mget_command keys) (conn s)) as [r c'].
  cbn [fst snd]. destruct (redis_ByteSlices r) as [rs [e|]]; cbn [fst snd].
  - split; reflexivity.
  - pose proof (alloc_replies_cached rs h) as [_ HF].
    apply Forall2_length in HF.
    destruct (alloc_replies h rs) as [h1 cis]. cbn [fst snd] in *.
    destruct (Nat.eqb_spec (length cis) (length keys)) as [Heq|Hne];
      cbn [negb].
    + split; [|intros Hne; congruence].
      match goal with |- context [g_hasErr ?g] => destruct (g_hasErr g) end;
        reflexivity.
    + split; [reflexivity|]. intros _. now rewrite HF.
Qed.

(** X10. What [GetMulti] can return, whatever the pool and the connection do.
    A nil map comes with no error only when no keys were given, and else
    with a connection error or the error of line 278 on a reply of the
    wrong length.  A map comes with no error or with a [MultiError] of
    one slot per key of which at least one holds an error, every error
    in it being that of a payload of fewer than four bytes (the error of
    [binary.Read] never occurs); and every item of the map carries its
    map key, which is one of the keys given, no expiration, a token,
    32-bit flags and a value that is not nil. *)
Theorem GetMulti_outcomes (b : backend) (h : Heap) (keys : list string) :
  match (GetMulti b h keys).1 with
  | (None, None, _) => keys = []
  | (None, Some e, _) =>
      keys <> []
      /\ (is_conn_err e = true
          \/ exists n, n <> length keys
               /\ e = ErrLenMismatch n (length keys))
  | (Some result, err, _) =>
      keys <> []
      /\ (err = None
          \/ exists me, err = Some (MultiError me)
               /\ length me = length keys
               /\ (exists i e, me !! i = Some (Some e))
               /\ slots_of is_short_err me)
      /\ map_Forall (get_item_ok keys) result
  end.
Proof.
  destruct keys as [|k0 ks] eqn:Ek; [reflexivity|]. rewrite <- Ek.
  assert (Hne : keys <> []) by (rewrite Ek; discriminate).
  assert (Hun : GetMulti b h keys
                = with_conn b (fun e => (None, Some e, h)) (get_body h keys)).
  { unfold GetMulti. now rewrite Ek. }
  rewrite Hun. clear Hun.
  destruct (store b) as [e|c] eqn:Hb.
  { rewrite (with_conn_fail b e) by assumption. cbn. auto. }
  rewrite (with_conn_run b c) by assumption. cbn [fst].
  set (s0 := {| conn := c; calls := [] |}).
  destruct (get_body_cases h keys s0) as [_ Hcases]. cbn zeta in Hcases.
  cbn [conn s0] in Hcases. unfold GetResult in *.
  destruct (conn_Do (mget_command keys) c) as [r c'] eqn:HDo.
  cbn [fst] in Hcases.
  destruct (redis_ByteSlices r) as [rs [e|]] eqn:HBS; cbn [fst snd] in Hcases.
  { rewrite Hcases. cbn. auto. }
  destruct (decide (length rs = length keys)) as [Hlen|Hlen].
  2:{ rewrite (Hcases Hlen). split; [assumption|]. right. eauto. }
  clear Hcases.
  pose proof (get_body_run h keys s0 c' r rs HDo HBS Hlen) as Hrun.
  cbn zeta in Hrun. unfold GetResult in Hrun. rewrite Hrun. clear Hrun.
  pose proof (alloc_replies_cached rs h) as [_ HF].
  set (h1 := (alloc_replies h rs).1) in *.
  set (cis := (alloc_replies h rs).2) in *.
  set (g0 := {| g_heap := h1; g_result := ∅;
                g_me := replicate (length keys) None; g_hasErr := false |}).
  destruct (get_loop_post h1 rs cis keys HF keys 0 g0)
    as [[_ Hres] (_ & Hl & _ & Hm & He & _ & _)].
  { intros j key Hj. exact Hj. }
  { cbn [g_me g0]. rewrite length_replicate. lia. }
  { split; [reflexivity|]. intros k it Hit. cbn [g_result g0] in Hit.
    rewrite lookup_empty in Hit. discriminate. }
  set (g := get_loop cis keys 0 g0) in *.
  cbn [g_me g_hasErr g0] in Hl, Hm, He. rewrite length_replicate in Hl.
  split; [assumption|]. split.
  - destruct (g_hasErr g) eqn:Eh; [right|now left].
    exists (g_me g). split; [reflexivity|]. split; [assumption|]. split.
    + destruct (proj1 He eq_refl) as [Habs|(p & Hp & [e Hsome])];
        [discriminate|].
      exists p, e. rewrite (Hm p Hp), Hsome. reflexivity.
    + intros i e Hi.
      assert (Hlt : (i < length keys)%nat).
      { rewrite <- Hl. eapply lookup_lt_Some; eauto. }
      rewrite (Hm i ltac:(lia)) in Hi.
      rewrite lookup_replicate_2 in Hi by assumption.
      unfold slot_err in Hi. destruct (reply_at rs i) as [bs|];
        [|discriminate].
      destruct (length bs <? 4)%nat eqn:Elen; [|discriminate].
      injection Hi as <-. exact Elen.
  - intros k it Hit.
    destruct (Hres k it Hit)
      as (j & s & bs & t & Hj & _ & _ & H4 & -> & _).
    split; [eapply list_elem_of_lookup_2; eauto|].
    split; [reflexivity|]. split; [reflexivity|]. split; [reflexivity|].
    split; [|discriminate].
    cbn [decoded Flags]. unfold flags_of.
    destruct bs as [|b0 [|b1 [|b2 [|b3 rest]]]]; cbn in H4; try lia.
    apply Uint32_range.
Qed.

(** X11. [GetMulti] asks for all the keys in one MGET, in the order given,
    makes no other call than this and the close of the connection,
    whatever the answer is; and given no keys it takes no connection. *)
Theorem GetMulti_asks_once (b : backend) (h : Heap) (keys : list string) :
  asks_once {| cmd_name := "MGET"; cmd_args := ArgString <$> keys |}
    (GetMulti b h keys)
  /\ (keys = [] -> (GetMulti b h keys).2 = None).
Proof.
  split; [|now intros ->].
  intros s Hs. unfold GetMulti in Hs.
  destruct (length keys =? 0)%nat; [discriminate|].
  destruct (store b) as [e|c] eqn:Hb.
  { rewrite (with_conn_fail b e) in Hs by assumption. discriminate. }
  rewrite (with_conn_run b c) in Hs by assumption. injection Hs as <-.
  destruct (get_body_cases h keys {| conn := c; calls := [] |}) as [Hc _].
  unfold Close. cbn [snd calls]. unfold GetResult in *. rewrite Hc.
  eexists. reflexivity.
Qed.

(** X12. A batch written and read back.  When the server answers the MGET of
    the keys of [items], which are distinct, with the payloads [set]
    sends for them, [GetMulti] returns no error and a map that holds, for
    every item of the batch, an item with the same flags and the same
    value bytes under its key, and nothing under other keys. *)
Theorem batch_round_trip
    (b : backend) (c c' : C) (h h' : Heap) (items : list Item)
    (r : Reply * option redis_err) :
  items <> [] ->
  Forall (fun item => is_uint32 (Flags item)) items ->
  NoDup (Key <$> items) ->
  store b = inr c ->
  conn_Do (mget_command (Key <$> items)) c = (r, c') ->
  redis_ByteSlices r = ((fun item => Some (payload h item)) <$> items, None) ->
  exists (result : gmap string Item) (hf : Heap),
    (GetMulti b h' (Key <$> items)).1 = (Some result, None, hf)
    /\ (forall item, item ∈ items ->
          exists it, result !! Key item = Some it
            /\ Flags it = Flags item
            /\ bytes_of hf (Value it) = bytes_of h (Value item))
    /\ forall k, is_Some (result !! k) -> k ∈ Key <$> items.
Proof.
  intros Hne Hfl Hnd Hb HDo HBS.
  set (keys := Key <$> items) in *.
  set (rs := (fun item => Some (payload h item)) <$> items) in *.
  assert (Hk : keys <> []) by (unfold keys; now destruct items).
  assert (Hlen : length rs = length keys).
  { unfold rs, keys. now rewrite !length_fmap. }
  destruct (GetMulti_spec b c c' h' keys r rs Hk Hb HDo HBS Hlen)
    as (h1 & cis & g & Hout & HF & [Hpre Hres]
        & (_ & _ & _ & _ & He & _ & Hx)).
  cbn [g_heap g_result g_me g_hasErr] in *.
  assert (Hp4 : forall item, (4 <= length (payload h item))%nat).
  { intros item. rewrite payload_eq, length_app. cbn. lia. }
  assert (Hat : forall i item, items !! i = Some item ->
            keys !! i = Some (Key item)
            /\ rs !! i = Some (Some (payload h item))).
  { intros i item Hi. unfold keys, rs. now rewrite !list_lookup_fmap, Hi. }
  assert (Hno : g_hasErr g = false).
  { destruct (g_hasErr g) eqn:Eh; [exfalso|reflexivity].
    destruct (proj1 He eq_refl) as [Habs|(p & Hp & Hsome)]; [discriminate|].
    destruct (lookup_lt_is_Some_2 items p) as [item Hi].
    { unfold keys in Hp. rewrite length_fmap in Hp. lia. }
    destruct (Hat p item Hi) as [_ Hr]. unfold reply_at in Hsome.
    rewrite Hr in Hsome. change (is_Some (slot_err (Some (payload h item))))
      in Hsome. unfold slot_err in Hsome.
    pose proof (Hp4 item) as H4. apply Nat.ltb_ge in H4.
    rewrite H4 in Hsome. now destruct Hsome. }
  rewrite Hno in Hout.
  exists (g_result g), (g_heap g). split; [exact Hout|]. split.
  - intros item Hin. apply list_elem_of_lookup in Hin as [i Hi].
    destruct (Hat i item Hi) as [Hki Hri].
    assert (Hlt : (i < length keys)%nat) by (eapply lookup_lt_Some; eauto).
    destruct (Hx i (Key item) (payload h item) ltac:(lia) Hki) as [it Hit];
      [unfold reply_at; now rewrite Hri|apply Hp4|].
    exists it. split; [assumption|].
    destruct (Hres (Key item) it Hit)
      as (j & s & bs & t & Hj & Hrs & Hcis & H4 & -> & _).
    assert (j = i) by (eapply NoDup_lookup; eauto). subst j.
    rewrite Hri in Hrs. injection Hrs as <-.
    pose proof (proj1 (Forall_lookup _ _) Hfl i item Hi) as Hu.
    cbn [decoded Flags Value bytes_of from_option]. split.
    + unfold flags_of. rewrite payload_eq.
      change (PutUint32 (Flags item))
        with (binary_Write_uint32 [] (Flags item)).
      now rewrite binary_Read_Write_uint32.
    + destruct (Forall2_lookup_r _ _ _ _ _ HF Hcis) as (r0 & Hr0 & Hc0).
      rewrite Hri in Hr0. injection Hr0 as <-. cbn [cached] in Hc0.
      assert (Hwf : whole (g_heap g) s (payload h item)).
      { eapply whole_extend; [exact Hpre|exact Hc0]. }
      rewrite slice_bytes_from by (destruct Hwf as (_ & _ & ->); apply Hp4).
      rewrite (whole_bytes _ _ _ Hwf), payload_eq. reflexivity.
  - intros k [it Hit].
    destruct (Hres k it Hit) as (j & _ & _ & _ & Hj & _).
    eapply list_elem_of_lookup_2; eauto.
Qed.

End GetMore.
End GetMoreFacts.

(** ** More on the delete coordinator *)

Module NdsMoreFacts.
Import Mem St Nds NdsWords StFacts.
Local Open Scope st_scope.

Section CoordinatorMore.
Context `{Env}.

Lemma draws_calls (n : nat) :
  forall s, calls (draws n s).2 = calls s ++ (CallRand <$> (draws n s).1)
            /\ length (draws n s).1 = n.
Proof.
  induction n as [|n IH]; intros s; cbn [draws].
  - cbn. now rewrite app_nil_r.
  - rewrite !bind_run. unfold ret. cbn [fst snd].
    destruct (IH (Uint32 s).2) as [Hc Hl].
    split; [|cbn [length]; now rewrite Hl]. rewrite Hc.
    set (vs := (draws n (Uint32 s).2).1). unfold Uint32.
    destruct (rand_Uint32 (world s)) as [v w]. cbn [fst snd calls].
    rewrite <- app_assoc. reflexivity.
Qed.

(** The lock loop on a batch whose first incomplete key comes after the
    complete keys [pre]. *)
Lemma lock_loop_first_incomplete (pre post : list datastore_Key)
    (k : datastore_Key) :
  (forall key, key ∈ pre -> Incomplete key = false) ->
  Incomplete k = true ->
  forall acc s,
    lock_loop (pre ++ k :: post) acc s
    = (inl ErrInvalidKey, (draws (length pre) s).2).
Proof.
  intros Hpre Hk. induction pre as [|key rest IH]; intros acc s.
  - cbn [app lock_loop length draws]. now rewrite Hk.
  - cbn [app lock_loop length draws].
    rewrite (Hpre key) by left. rewrite !bind_run.
    rewrite IH by (intros x Hx; apply Hpre; now right).
    reflexivity.
Qed.

(** X13. An aborted delete.  On a batch whose first incomplete key comes after
    the complete keys [pre], [deleteMulti] returns [ErrInvalidKey] and
    leaves the world as one draw of [rand.Uint32] per key of [pre] leaves
    it: these draws are its only calls, and the keys after the incomplete
    one play no part.  A batch that starts with an incomplete key leaves
    the world untouched. *)
Theorem deleteMulti_abort_draws
    (cc : context) (pre post : list datastore_Key) (k : datastore_Key)
    (s : State) :
  (forall key, key ∈ pre -> Incomplete key = false) ->
  Incomplete k = true ->
  deleteMulti cc (pre ++ k :: post) s
  = (Some ErrInvalidKey, (draws (length pre) s).2)
  /\ (exists vs, length vs = length pre
        /\ calls (deleteMulti cc (pre ++ k :: post) s).2
           = calls s ++ (CallRand <$> vs))
  /\ (pre = [] -> deleteMulti cc (pre ++ k :: post) s
                  = (Some ErrInvalidKey, s)).
Proof.
  intros Hpre Hk.
  assert (Hrun : deleteMulti cc (pre ++ k :: post) s
                 = (Some ErrInvalidKey, (draws (length pre) s).2)).
  { unfold deleteMulti. rewrite bind_run.
    now rewrite (lock_loop_first_incomplete pre post k Hpre Hk). }
  split; [exact Hrun|]. split.
  - rewrite Hrun. cbn [snd].
    destruct (draws_calls (length pre) s) as [Hc Hl]. eauto.
  - intros ->. exact Hrun.
Qed.

(** X14. [Delete] of one key.  With a context of another package it goes
    straight to the datastore with the batch of this key.  With the
    package's own context, an incomplete key gives [ErrInvalidKey] and
    nothing is called; for a complete key, one number is drawn, the lock
    item of the key with this number as flags is handed to memcache, and
    the datastore is asked to delete the key only if that gave no error,
    the error being returned otherwise. *)
Theorem Delete_one_key (c : appengine_Context) (key : datastore_Key)
    (s : State) :
  match c with
  | OtherContext _ =>
      Delete c key s = datastoreDeleteMulti c [key] s
  | FromNewContext cc =>
      if Incomplete key then Delete c key s = (Some ErrInvalidKey, s)
      else
        let v := (Uint32 s).1 in
        let l := SetMulti c [lock_item key v] (Uint32 s).2 in
        Delete c key s
        = match l.1 with
          | Some e => (Some e, l.2)
          | None => datastoreDeleteMulti c [key] l.2
          end
  end.
Proof.
  destruct c as [cc|c']; [|reflexivity].
  unfold Delete, DeleteMulti, deleteMulti. cbn [lock_loop].
  destruct (Incomplete key); [reflexivity|].
  cbn zeta. rewrite !bind_run. unfold ret. cbn [fst snd app].
  rewrite bind_run. now destruct (SetMulti _ _ _).1.
Qed.

End CoordinatorMore.
End NdsMoreFacts.

(** ** [NewCacher] and the commands of the backend *)

Module CacherFacts.
Import Wire Mem St Redis RedisWords Cacher.
Import WireFacts MemFacts StFacts RedisFacts WriterFacts.
Local Open Scope st_scope.

Section CacherFacts.
Context {C : Type} `{Conn C}.

(** X15. The arguments of the SET command of [set]: the key and the payload,
    then NX for [AddMulti], then PX and the expiration in whole
    milliseconds, rounded toward zero, unless the expiration is zero.  So
    an expiration under a millisecond is sent as PX 0; and whenever PX is
    sent its number is the one [CompareAndSwapMulti] hands to its script
    for the item. *)
Theorem set_command_arguments (h : Heap) (nx : bool) (item : Item) :
  set_command h nx item
  = {| cmd_name := "SET";
       cmd_args :=
         [ArgString (Key item);
          ArgBytes (PutUint32 (Flags item) ++ bytes_of h (Value item))]
         ++ (if nx then [ArgString "NX"] else [])
         ++ (if Expiration item =? 0 then []
             else [ArgString "PX";
                   ArgInt64 (Z.quot (Expiration item) 1000000)]) |}
  /\ (Expiration item <> 0 ->
      last (cmd_args (set_command h nx item))
      = Some (ArgInt64 (cas_expire item)))
  /\ (Expiration item <> 0 -> Z.abs (Expiration item) < 1000000 ->
      last (cmd_args (set_command h nx item)) = Some (ArgInt64 0)).
Proof.
  assert (Heq : set_command h nx item
    = {| cmd_name := "SET";
         cmd_args :=
           [ArgString (Key item);
            ArgBytes (PutUint32 (Flags item) ++ bytes_of h (Value item))]
           ++ (if nx then [ArgString "NX"] else [])
           ++ (if Expiration item =? 0 then []
               else [ArgString "PX";
                     ArgInt64 (Z.quot (Expiration item) 1000000)]) |}).
  { unfold set_command. rewrite Truncate_quot.
    change (payload h item)
      with (PutUint32 (Flags item) ++ bytes_of h (Value item)).
    unfold Millisecond.
    destruct nx, (Expiration item =? 0); reflexivity. }
  split; [exact Heq|]. split.
  - intros Hne. rewrite Heq. cbn [cmd_args]. unfold cas_expire.
    rewrite Truncate_quot. unfold Millisecond.
    destruct (Z.eqb_spec (Expiration item) 0); [contradiction|].
    now destruct nx.
  - intros Hne Habs. rewrite Heq. cbn [cmd_args].
    destruct (Z.eqb_spec (Expiration item) 0); [contradiction|].
    assert (Hq : Z.quot (Expiration item) 1000000 = 0)
      by (apply Z.quot_small_iff; lia).
    rewrite Hq. now destruct nx.
Qed.

Variable redis_String : Reply * option redis_err -> string * option redis_err.
Variable casScript_text : string.

(** X16. [NewCacher].  When the pool gives no connection, its error is
    returned and [casSha] is left as it was.  Otherwise one call is made
    on the connection, the SCRIPT LOAD of [casScript], and the connection
    is not closed; [casSha] becomes what [redis.String] makes of the
    answer, also when that is an error, in which case the error is
    returned with a nil cacher; else the cacher over the pool is
    returned.  Every command [CompareAndSwapMulti] sends afterwards,
    however its goroutines are scheduled, is an EVALSHA whose first
    argument is this [casSha]. *)
Theorem NewCacher_loads_script (pool : redis_err + C) (casSha : string) :
  let out := NewCacher redis_String casScript_text pool casSha in
  match pool with
  | inl e => out = (None, Some (ConnErr e), casSha, None)
  | inr c =>
      let r := (conn_Do (load_command casScript_text) c).1 in
      out.1.1 = match (redis_String r).2 with
                | Some e => (None, Some (ConnErr e))
                | None => (Some {| store := pool |}, None)
                end
      /\ out.1.2 = (redis_String r).1
      /\ exists s, out.2 = Some s
           /\ calls s
              = [CallDo {| cmd_name := "SCRIPT";
                           cmd_args := [ArgString "LOAD";
                                        ArgString casScript_text] |} r.2]
  end
  /\ forall (sched : Schedule) (b : backend) (h : Heap) (items : list Item)
            (s : ConnState C),
       (CompareAndSwapMulti out.1.2 sched b h items).2 = Some s ->
       Forall (fun cmd => cmd_name cmd = "EVALSHA"
                          /\ head (cmd_args cmd) = Some (ArgString out.1.2))
         (sent (calls s)).
Proof.
  cbn zeta. split.
  - destruct pool as [e|c]; [reflexivity|].
    unfold NewCacher, Do. cbn [conn calls app].
    destruct (conn_Do (load_command casScript_text) c) as [r c'].
    cbn [fst snd]. destruct (redis_String r) as [sha [e|]]; cbn [fst snd];
      (split; [reflexivity|]; split; [reflexivity|]);
      eexists; (split; [reflexivity|]); reflexivity.
  - intros sched b h items s Hs.
    rewrite (CompareAndSwapMulti_sent _ sched b h items s Hs).
    apply Forall_forall. intros cmd Hin.
    apply list_elem_of_omap in Hin as (item & _ & Hcmd).
    unfold token_command in Hcmd.
    destruct (GetCASInfo item) as [|[cas|]|]; try discriminate.
    injection Hcmd as <-. split; reflexivity.
Qed.

End CacherFacts.
End CacherFacts.

(** ** More theorems at concrete inputs *)

Module MoreWitnesses.

Section WriterWitnesses.
Import Mem Redis RedisWords ScriptedConn SteadyConn Inputs MoreInputs.
Import WriterFacts.

Lemma every_slot_is_sent_witness :
  let b := {| store := inr (replying [(RStatus "OK", None)]) |} in
  let sched := [Caller; Sender; Caller; Sender; Sender] in
  (exists s, (AddMulti sched b heap_x [item_a; item_b]).2 = Some s
     /\ sent (calls s)
        = [set_command heap_x true item_a; set_command heap_x true item_b])
  /\ (exists s, (DeleteMulti sched b ["a"; "b"]).2 = Some s
        /\ sent (calls s) = [del_command "a"; del_command "b"]).
Proof.
  intros b sched.
  pose proof (every_slot_is_sent sched b heap_x [item_a; item_b] ["a"; "b"])
    as (Hadd & _ & Hdel).
  split; eexists; (split; [reflexivity|]).
  - exact (Hadd _ eq_refl).
  - exact (Hdel _ eq_refl).
Defined.

Lemma batch_writers_calls_witness :
  let b := {| store := inr (replying [(RStatus "OK", None)]) |} in
  let sched := [Caller; Sender; Caller; Sender; Sender] in
  exists s, (AddMulti sched b heap_x [item_a; item_b]).2 = Some s
    /\ two_goroutines [set_command heap_x true item_a;
                       set_command heap_x true item_b] 2 (calls s).
Proof.
  intros b sched. eexists. split; [reflexivity|].
  exact (proj1 (batch_writers_calls "sha" sched b heap_x [item_a; item_b]
                  ["a"; "b"]) _ eq_refl).
Defined.

Lemma steady_is_healthy : healthy (C:=SteadyConn.sconn).
Proof. repeat split. Qed.

Lemma writers_on_healthy_connection_witness :
  let b := {| store := inr SteadyConn.Steady |} in
  let sched := [Caller; Sender; Caller; Sender; Sender] in
  healthy (C:=SteadyConn.sconn)
  /\ store b = inr SteadyConn.Steady
  /\ (forall item, item ∈ [item_cas] -> has_token item = true)
  /\ (AddMulti sched b heap_cas [item_cas]).1 = None
  /\ (SetMulti sched b heap_cas [item_cas]).1 = None
  /\ (CompareAndSwapMulti "sha" sched b heap_cas [item_cas]).1 = None
  /\ (DeleteMulti sched b ["a"]).1 = None.
Proof.
  intros b sched.
  assert (Htok : forall item, item ∈ [item_cas] -> has_token item = true).
  { intros item Hin. apply list_elem_of_singleton in Hin. now subst. }
  destruct (writers_on_healthy_connection "sha" sched b heap_cas [item_cas]
              ["a"] SteadyConn.Steady steady_is_healthy eq_refl)
    as (Hadd & Hset & Hcas & Hdel).
  split; [exact steady_is_healthy|]. split; [reflexivity|].
  split; [exact Htok|]. split; [exact Hadd|]. split; [exact Hset|].
  split; [exact (Hcas Htok)|]. apply Hdel. reflexivity.
Defined.

Lemma flush_error_lost_witness :
  let b := {| store := inr broken |} in
  let e := redis_Error "write: broken pipe" in
  store b = inr broken
  /\ AddMulti caller_first b heap_x []
     = (None, Some {| conn := broken;
                      calls := [CallClose; CallFlush (Some e)] |})
  /\ DeleteMulti caller_first b []
     = (None, Some {| conn := broken;
                      calls := [CallClose; CallFlush (Some e)] |})
  /\ (AddMulti (sender_first 0) b heap_x []).1 = Some (ConnErr e).
Proof.
  intros b e.
  destruct (flush_error_lost "sha" b broken heap_x eq_refl)
    as (Hadd & _ & _ & Hdel & Hjoin).
  split; [reflexivity|]. split; [exact Hadd|]. split; [exact Hdel|].
  exact Hjoin.
Defined.

Lemma pool_failure_is_returned_witness :
  let e := redis_Error "redigo: connection pool exhausted" in
  store no_pool = inl e
  /\ AddMulti caller_first no_pool heap_x [item_a] = (Some (ConnErr e), None)
  /\ DeleteMulti caller_first no_pool ["a"] = (Some (ConnErr e), None)
  /\ GetMulti no_pool heap_x ["a"] = (None, Some (ConnErr e), heap_x, None).
Proof.
  intros e.
  destruct (pool_failure_is_returned "sha" caller_first no_pool heap_x
              [item_a] ["a"] e eq_refl) as (Hadd & _ & _ & Hdel & Hget).
  split; [reflexivity|]. split; [exact Hadd|]. split; [exact Hdel|].
  exact Hget.
Defined.

End WriterWitnesses.

Section GetWitnesses.
Import Wire Mem Redis RedisWords ScriptedConn Inputs MoreInputs GetMoreFacts.

Lemma GetMulti_asks_once_witness :
  let b := {| store := inr (answering [None]) |} in
  (GetMulti b heap_x []).2 = None
  /\ asks_once (mget_command ["a"]) (GetMulti b heap_x ["a"]).
Proof.
  intros b. split.
  - exact (proj2 (GetMulti_asks_once b heap_x []) eq_refl).
  - exact (proj1 (GetMulti_asks_once b heap_x ["a"])).
Defined.

Lemma batch_round_trip_witness :
  let items := [item_a; item_b] in
  let c := answering [Some (payload heap_x item_a);
                      Some (payload heap_x item_b)] in
  let b := {| store := inr c |} in
  items <> []
  /\ Forall (fun item => is_uint32 (Flags item)) items
  /\ NoDup (Key <$> items)
  /\ store b = inr c
  /\ conn_Do (mget_command (Key <$> items)) c = (t_do c, c)
  /\ redis_ByteSlices (t_do c)
     = ((fun item => Some (payload heap_x item)) <$> items, None)
  /\ exists (result : gmap string Item) (hf : Heap),
       (GetMulti b [] (Key <$> items)).1 = (Some result, None, hf)
       /\ (forall item, item ∈ items ->
             exists it, result !! Key item = Some it
               /\ Flags it = Flags item
               /\ bytes_of hf (Value it) = bytes_of heap_x (Value item))
       /\ forall k, is_Some (result !! k) -> k ∈ Key <$> items.
Proof.
  intros items c b.
  assert (Hne : items <> []) by discriminate.
  assert (Hfl : Forall (fun item => is_uint32 (Flags item)) items).
  { repeat constructor; unfold is_uint32; cbn; lia. }
  assert (Hnd : NoDup (Key <$> items)).
  { apply NoDup_cons. split; [|apply NoDup_singleton].
    intros Hin. apply list_elem_of_singleton in Hin. discriminate. }
  split; [exact Hne|]. split; [exact Hfl|]. split; [exact Hnd|].
  split; [reflexivity|]. split; [reflexivity|]. split; [reflexivity|].
  exact (batch_round_trip b c c heap_x [] items (t_do c)
           Hne Hfl Hnd eq_refl eq_refl eq_refl).
Defined.

End GetWitnesses.

Section CoordinatorWitnesses.
Import Nds NdsWords ScriptedWorld Inputs NdsMoreFacts.

Lemma deleteMulti_abort_draws_witness :
  let s := start world_ok in
  (forall key : key, key ∈ [key_a] -> Incomplete key = false)
  /\ Incomplete key_new = true
  /\ deleteMulti tt [key_a; key_new; key_b] s
     = (Some ErrInvalidKey, (draws 1 s).2)
  /\ calls (deleteMulti tt [key_a; key_new; key_b] s).2
     = [CallRand 1103527590].
Proof.
  intros s.
  assert (Hpre : forall key : key, key ∈ [key_a] -> Incomplete key = false).
  { intros key Hin. apply list_elem_of_singleton in Hin. now subst. }
  destruct (@deleteMulti_abort_draws world_Types world_Env tt [key_a]
              [key_b] key_new s Hpre eq_refl) as (Hrun & _ & _).
  split; [exact Hpre|]. split; [reflexivity|]. split; [exact Hrun|].
  reflexivity.
Defined.

End CoordinatorWitnesses.

Section CacherWitnesses.
Import Mem Redis RedisWords Cacher ScriptedConn Inputs MoreInputs CacherFacts.

Lemma set_command_arguments_witness :
  Expiration item_cas <> 0
  /\ Expiration item_brief <> 0
  /\ Z.abs (Expiration item_brief) < 1000000
  /\ last (cmd_args (set_command heap_cas false item_cas))
     = Some (ArgInt64 (cas_expire item_cas))
  /\ cas_expire item_cas = 1
  /\ last (cmd_args (set_command heap_x true item_brief))
     = Some (ArgInt64 0).
Proof.
  assert (H1 : Expiration item_cas <> 0) by discriminate.
  assert (H2 : Expiration item_brief <> 0) by discriminate.
  assert (H3 : Z.abs (Expiration item_brief) < 1000000) by reflexivity.
  split; [exact H1|]. split; [exact H2|]. split; [exact H3|].
  split; [|split; [reflexivity|]].
  - exact (proj1 (proj2 (set_command_arguments heap_cas false item_cas)) H1).
  - exact (proj2 (proj2 (set_command_arguments heap_x true item_brief))
             H2 H3).
Defined.

Lemma NewCacher_loads_script_witness :
  let out := NewCacher t_String "script" (inr no_loader) "old" in
  let b := {| store := inr (replying [(RStatus "OK", None)]) |} in
  out.1.1 = (None, Some (ConnErr (redis_Error "ERR unknown command")))
  /\ out.1.2 = EmptyString
  /\ exists s, (CompareAndSwapMulti out.1.2 caller_first b heap_cas
                  [item_cas]).2 = Some s
       /\ Forall (fun cmd => cmd_name cmd = "EVALSHA"
                             /\ head (cmd_args cmd)
                                = Some (ArgString out.1.2))
            (sent (calls s)).
Proof.
  intros out b.
  destruct (NewCacher_loads_script (H:=tconn_Conn) t_String "script"
              (inr no_loader) "old") as ((Hres & Hsha & _) & Hcas).
  split; [exact Hres|]. split; [exact Hsha|].
  eexists. split; [reflexivity|].
  exact (Hcas caller_first b heap_cas [item_cas] _ eq_refl).
Defined.

End CacherWitnesses.
End MoreWitnesses.
